(** * chess-webapp: the move-search engine of [src/services/chessEngine.ts]

    A shallow embedding of the static evaluator, the quiescence search, the
    alpha-beta minimax, the root search driver, the difficulty move selector
    and the evaluation reporter, together with the properties stated about
    them.

    The rules engine ([chess.js]) is an external collaborator of the program:
    it is modelled by the interface [ChessEngine], and the search is written
    against that interface.  Two concrete engines ([Toy], a finite game tree
    with an undo stack, and [Loop], a game that never ends) are used to run
    the definitions on explicit inputs. *)

From Stdlib Require Import ZArith List Bool String Ascii Lia Permutation Sorted.
From Stdlib Require Import QArith Qround Qpower Lqa.
Import ListNotations.
Local Open Scope Z_scope.

Set Implicit Arguments.

(* ================================================================== *)
(** ** Scores

    Scores are JavaScript numbers.  Every score the engine computes is an
    integer sum of centipawn values (exact in a double) or one of the two
    infinities, and the search only compares scores and takes maxima and
    minima; no arithmetic is ever done on an infinity. *)

Inductive score : Type :=
| NegInfinity : score
| Finite : Z -> score
| Infinity : score.

Declare Scope score_scope.
Delimit Scope score_scope with S.
Bind Scope score_scope with score.

Definition score_leb (a b : score) : bool :=
  match a, b with
  | NegInfinity, _ => true
  | _, Infinity => true
  | Finite x, Finite y => x <=? y
  | _, _ => false
  end.

Definition score_ltb (a b : score) : bool := negb (score_leb b a).

Notation "a <=? b" := (score_leb a b) : score_scope.
Notation "a <? b" := (score_ltb a b) : score_scope.
Notation "a >=? b" := (score_leb b a) : score_scope.
Notation "a >? b" := (score_ltb b a) : score_scope.

Definition score_le (a b : score) : Prop := score_leb a b = true.
Definition score_lt (a b : score) : Prop := score_ltb a b = true.

Definition Math_max (a b : score) : score := if (a <? b)%S then b else a.
Definition Math_min (a b : score) : score := if (b <? a)%S then b else a.

Definition score_neg (a : score) : score :=
  match a with
  | NegInfinity => Infinity
  | Finite x => Finite (- x)
  | Infinity => NegInfinity
  end.

(* ================================================================== *)
(** ** Pieces, moves and the static tables *)

Inductive Color : Type := White | Black.

(** ['p' | 'n' | 'b' | 'r' | 'q' | 'k'] *)
Inductive PieceSymbol : Type := Pawn | Knight | Bishop | Rook | Queen | King.

Record Piece : Type := mkPiece { color : Color; type : PieceSymbol }.

(** The attributes of a verbose [chess.js] move that the engine reads. *)
Record Move : Type := mkMove {
  piece : PieceSymbol;
  captured : option PieceSymbol;
  promotion : option PieceSymbol;
  flags : string;
  san : string
}.

Definition Board : Type := list (list (option Piece)).

Definition Color_eqb (c d : Color) : bool :=
  match c, d with
  | White, White | Black, Black => true
  | _, _ => false
  end.

Definition pieceValues (t : PieceSymbol) : Z :=
  match t with
  | Pawn => 100 | Knight => 320 | Bishop => 330
  | Rook => 500 | Queen => 900 | King => 20000
  end.

Record Settings : Type := mkSettings { depth : Z; errorRate : Q }.

Inductive Difficulty : Type := beginner | intermediate | advanced | master.

Definition difficultySettings (d : Difficulty) : Settings :=
  match d with
  | beginner => mkSettings 2 (8 # 10)
  | intermediate => mkSettings 3 (5 # 10)
  | advanced => mkSettings 3 (2 # 10)
  | master => mkSettings 4 0
  end.

Definition Table : Type := list (list Z).

Definition pawnEvalWhite : Table :=
  [ [0;  0;  0;  0;  0;  0;  0;  0];
    [50; 50; 50; 50; 50; 50; 50; 50];
    [10; 10; 20; 30; 30; 20; 10; 10];
    [5;  5; 10; 27; 27; 10;  5;  5];
    [0;  0;  0; 25; 25;  0;  0;  0];
    [5; -5;-10;  0;  0;-10; -5;  5];
    [5; 10; 10;-25;-25; 10; 10;  5];
    [0;  0;  0;  0;  0;  0;  0;  0] ].

Definition knightEval : Table :=
  [ [-50;-40;-30;-30;-30;-30;-40;-50];
    [-40;-20;  0;  0;  0;  0;-20;-40];
    [-30;  0; 10; 15; 15; 10;  0;-30];
    [-30;  5; 15; 20; 20; 15;  5;-30];
    [-30;  0; 15; 20; 20; 15;  0;-30];
    [-30;  5; 10; 15; 15; 10;  5;-30];
    [-40;-20;  0;  5;  5;  0;-20;-40];
    [-50;-40;-30;-30;-30;-30;-40;-50] ].

Definition bishopEvalWhite : Table :=
  [ [-20;-10;-10;-10;-10;-10;-10;-20];
    [-10;  0;  0;  0;  0;  0;  0;-10];
    [-10;  0;  5; 10; 10;  5;  0;-10];
    [-10;  5;  5; 10; 10;  5;  5;-10];
    [-10;  0; 10; 10; 10; 10;  0;-10];
    [-10; 10; 10; 10; 10; 10; 10;-10];
    [-10;  5;  0;  0;  0;  0;  5;-10];
    [-20;-10;-10;-10;-10;-10;-10;-20] ].

Definition rookEvalWhite : Table :=
  [ [0;  0;  0;  0;  0;  0;  0;  0];
    [5; 10; 10; 10; 10; 10; 10;  5];
    [-5;  0;  0;  0;  0;  0;  0; -5];
    [-5;  0;  0;  0;  0;  0;  0; -5];
    [-5;  0;  0;  0;  0;  0;  0; -5];
    [-5;  0;  0;  0;  0;  0;  0; -5];
    [-5;  0;  0;  0;  0;  0;  0; -5];
    [0;  0;  0;  5;  5;  0;  0;  0] ].

Definition queenEval : Table :=
  [ [-20;-10;-10; -5; -5;-10;-10;-20];
    [-10;  0;  0;  0;  0;  0;  0;-10];
    [-10;  0;  5;  5;  5;  5;  0;-10];
    [-5;  0;  5;  5;  5;  5;  0; -5];
    [0;  0;  5;  5;  5;  5;  0; -5];
    [-10;  5;  5;  5;  5;  5;  0;-10];
    [-10;  0;  5;  0;  0;  0;  0;-10];
    [-20;-10;-10; -5; -5;-10;-10;-20] ].

Definition kingEvalWhite : Table :=
  [ [-30;-40;-40;-50;-50;-40;-40;-30];
    [-30;-40;-40;-50;-50;-40;-40;-30];
    [-30;-40;-40;-50;-50;-40;-40;-30];
    [-30;-40;-40;-50;-50;-40;-40;-30];
    [-20;-30;-30;-40;-40;-30;-30;-20];
    [-10;-20;-20;-20;-20;-20;-20;-10];
    [20; 20;  0;  0;  0;  0; 20; 20];
    [20; 30; 10;  0;  0; 10; 30; 20] ].

(** [[...t].reverse()]: the rows in the opposite order. *)
Definition pawnEvalBlack : Table := rev pawnEvalWhite.
Definition bishopEvalBlack : Table := rev bishopEvalWhite.
Definition rookEvalBlack : Table := rev rookEvalWhite.
Definition kingEvalBlack : Table := rev kingEvalWhite.

(** [table[rowIndex][colIndex]].  The board snapshot of the rules engine has
    8 rows of 8 squares, so both indexes stay below 8 and the defaults of
    [nth] are never read (see [board_wf]). *)
Definition lookup (t : Table) (rowIndex colIndex : nat) : Z :=
  nth colIndex (nth rowIndex t []) 0.

Definition getPiecePositionalValue (pc : Piece) (rowIndex colIndex : nat) : Z :=
  match type pc with
  | Pawn => if Color_eqb (color pc) White then lookup pawnEvalWhite rowIndex colIndex
         else lookup pawnEvalBlack rowIndex colIndex
  | Knight => lookup knightEval rowIndex colIndex
  | Bishop => if Color_eqb (color pc) White then lookup bishopEvalWhite rowIndex colIndex
         else lookup bishopEvalBlack rowIndex colIndex
  | Rook => if Color_eqb (color pc) White then lookup rookEvalWhite rowIndex colIndex
         else lookup rookEvalBlack rowIndex colIndex
  | Queen => lookup queenEval rowIndex colIndex
  | King => if Color_eqb (color pc) White then lookup kingEvalWhite rowIndex colIndex
         else lookup kingEvalBlack rowIndex colIndex
  end.

(** [xs.forEach((x, index) => ...)] with an accumulator. *)
Fixpoint forEach_from {A Acc : Type} (f : Acc -> A -> nat -> Acc) (i : nat) (xs : list A)
    (acc : Acc) : Acc :=
  match xs with
  | [] => acc
  | x :: rest => forEach_from f (S i) rest (f acc x i)
  end.

Definition forEach {A Acc : Type} (f : Acc -> A -> nat -> Acc) (xs : list A) (acc : Acc) : Acc :=
  forEach_from f 0 xs acc.

Definition squareValue (sq : option Piece) (rowIndex colIndex : nat) : Z :=
  match sq with
  | Some pc =>
      let materialValue := pieceValues (type pc) in
      let positionalValue := getPiecePositionalValue pc rowIndex colIndex in
      let value := materialValue + positionalValue in
      value * (if Color_eqb (color pc) White then 1 else -1)
  | None => 0
  end.

Definition boardTotal (bd : Board) : Z :=
  forEach (fun totalEvaluation row rowIndex =>
    forEach (fun totalEvaluation sq colIndex =>
      match sq with
      | Some _ => totalEvaluation + squareValue sq rowIndex colIndex
      | None => totalEvaluation
      end) row totalEvaluation) bd 0.

Definition board_wf (bd : Board) : Prop :=
  List.length bd = 8%nat /\ Forall (fun row => List.length row = 8%nat) bd.

(* ================================================================== *)
(** ** The rules engine

    What the engine asks of a [Chess] object.  [move] and [undo] mutate the
    object in the source; here they return the new state.  [newChess (fen g)]
    is the independent copy [new Chess(game.fen())]. *)

Class ChessEngine (Game : Type) : Type := {
  Fen : Type;
  isCheckmate : Game -> bool;
  isDraw : Game -> bool;
  isGameOver : Game -> bool;
  turn : Game -> Color;
  board : Game -> Board;
  moves : Game -> list Move;
  move : Game -> Move -> Game;
  undo : Game -> Game;
  fen : Game -> Fen;
  newChess : Fen -> Game
}.

Section Evaluator.
Context {Game : Type} `{ChessEngine Game}.

Definition evaluateBoard (game : Game) : score :=
  if isCheckmate game then
    (if Color_eqb (turn game) Black then Infinity else NegInfinity)
  else if isDraw game then Finite 0
  else Finite (boardTotal (board game)).

End Evaluator.

(* ================================================================== *)
(** ** The search monad

    The recursive search works on one shared, mutable [Chess] object.  A
    computation takes the state of that object and returns its result with
    the state it leaves behind; [None] means that the fuel of the embedding
    ran out (the source has no such bound: it would go on recursing). *)

Definition Search (Game A : Type) : Type := Game -> option (A * Game).

Definition ret {Game A : Type} (a : A) : Search Game A :=
  fun game => Some (a, game).

Definition bind {Game A B : Type} (c : Search Game A) (f : A -> Search Game B) : Search Game B :=
  fun game =>
    match c game with
    | Some (a, game') => f a game'
    | None => None
    end.

Definition out_of_fuel {Game A : Type} : Search Game A := fun _ => None.

Definition ask {Game A : Type} (f : Game -> A) : Search Game A :=
  fun game => Some (f game, game).

Definition update {Game : Type} (f : Game -> Game) : Search Game unit :=
  fun game => Some (tt, f game).

Notation "x <- c ;; f" := (bind c (fun x => f))
  (at level 61, c at next level, right associativity).
Notation "c ;; f" := (bind c (fun _ => f))
  (at level 61, right associativity).

(* ================================================================== *)
(** ** Sorting and move attributes *)

(** [flags.includes(c)] for a one-character [c]. *)
Fixpoint includes (s : string) (c : ascii) : bool :=
  match s with
  | EmptyString => false
  | String d rest => Ascii.eqb d c || includes rest c
  end.

(** [Array.prototype.sort(cmp)]: a stable sort; an element stays in front of
    a later one unless the comparator is positive on the pair. *)
Fixpoint sort_insert {A : Type} (cmp : A -> A -> Z) (x : A) (l : list A) : list A :=
  match l with
  | [] => [x]
  | y :: rest => if cmp x y <=? 0 then x :: y :: rest else y :: sort_insert cmp x rest
  end.

Fixpoint sort {A : Type} (cmp : A -> A -> Z) (l : list A) : list A :=
  match l with
  | [] => []
  | x :: rest => sort_insert cmp x (sort cmp rest)
  end.

(** [pieceValues[x] || 0] *)
Definition valueOr0 (x : option PieceSymbol) : Z :=
  match x with
  | Some t => pieceValues t
  | None => 0
  end.

(** The comparator of the capture ordering in [quiescence]. *)
Definition captureScore (a : Move) : Z :=
  valueOr0 (captured a) - valueOr0 (Some (piece a)).

Definition compareCaptures (a b0 : Move) : Z := captureScore b0 - captureScore a.

(** The comparator of the move ordering in [minimax].  [chess.js] sets
    [captured] on every move whose flags contain ['c'], so the lookup
    [pieceValues[a.captured!]] is defined whenever it is evaluated. *)
Definition orderScore (a : Move) : Z :=
  let aScore := 0 in
  let aScore :=
    if includes (flags a) "c" then aScore + (10 * valueOr0 (captured a) - pieceValues (piece a))
    else aScore in
  let aScore :=
    match promotion a with
    | Some t => aScore + pieceValues t
    | None => aScore
    end in
  aScore.

Definition compareMoves (a b0 : Move) : Z := orderScore b0 - orderScore a.

(* ================================================================== *)
(** ** Doubles

    [Math.random()] returns a double and [Math.random() * length] is a
    double product: the exact product rounded to the nearest double, ties
    to even.  A double is read as the rational it denotes; [round64] is the
    rounding of IEEE 754 binary64 on the rationals: 53 significant bits,
    and steps of 2^-1074 in the subnormal range.  (Overflow is left out:
    the products rounded here are below the length of an array.) *)

Definition pow2 (e : Z) : Q := (2 ^ e)%Q.

(** The exponent of the leading bit: [2^(ilog2 x) <= x < 2^(ilog2 x + 1)]
    for a positive [x]. *)
Definition ilog2 (x : Q) : Z :=
  let e0 := Z.log2 (Qnum x) - Z.log2 (Zpos (Qden x)) in
  if Qle_bool (pow2 e0) x then e0 else e0 - 1.

(** The exponent of the last place of the doubles around [x]. *)
Definition ulpExponent (x : Q) : Z := Z.max (ilog2 x - 52) (-1074).

Definition roundPositive (x : Q) : Q :=
  let u := ulpExponent x in
  let q := (x / pow2 u)%Q in
  let f := Qfloor q in
  let g := match (q - inject_Z f ?= 1 # 2)%Q with
           | Lt => f
           | Gt => f + 1
           | Eq => if Z.even f then f else f + 1
           end in
  (inject_Z g * pow2 u)%Q.

Definition round64 (x : Q) : Q :=
  match Qnum x with
  | Z0 => 0%Q
  | Zpos _ => roundPositive x
  | Zneg _ => (- roundPositive (- x))%Q
  end.

(** The rationals that are finite doubles. *)
Definition double (x : Q) : Prop :=
  exists m e, Z.abs m < 2 ^ 53 /\ -1074 <= e <= 971 /\ (x == inject_Z m * pow2 e)%Q.

(** The double written [0.7]: 0x3FE6666666666666. *)
Definition double_0_7 : Q := (inject_Z 6305039478318694 * pow2 (-53))%Q.

(* ================================================================== *)
(** ** Quiescence search, minimax, root driver, selector, reporter *)

Section Engine.
Context {Game : Type} `{ChessEngine Game}.

Definition captureMoves (game : Game) : list Move :=
  sort compareCaptures (filter (fun m => includes (flags m) "c") (moves game)).

(** The [for (const move of captureMoves)] loop of [quiescence]; [rec] is
    the recursive call. *)
Fixpoint quiescence_loop (rec : score -> score -> bool -> Search Game score)
    (isMaximizingPlayer : bool) (ms : list Move) (alpha beta : score) : Search Game score :=
  match ms with
  | [] => ret (if isMaximizingPlayer then alpha else beta)
  | m :: rest =>
      update (fun game => move game m) ;;
      score <- rec alpha beta (negb isMaximizingPlayer) ;;
      update undo ;;
      if isMaximizingPlayer then
        if (score >=? beta)%S then ret beta
        else quiescence_loop rec isMaximizingPlayer rest
               (if (score >? alpha)%S then score else alpha) beta
      else
        if (score <=? alpha)%S then ret alpha
        else quiescence_loop rec isMaximizingPlayer rest
               alpha (if (score <? beta)%S then score else beta)
  end.

Fixpoint quiescence (fuel : nat) (alpha beta : score) (isMaximizingPlayer : bool)
    : Search Game score :=
  match fuel with
  | O => out_of_fuel
  | S fuel' =>
      stand_pat <- ask evaluateBoard ;;
      if isMaximizingPlayer then
        if (stand_pat >=? beta)%S then ret beta
        else
          let alpha := if (stand_pat >? alpha)%S then stand_pat else alpha in
          ms <- ask captureMoves ;;
          quiescence_loop (quiescence fuel') isMaximizingPlayer ms alpha beta
      else
        if (stand_pat <=? alpha)%S then ret alpha
        else
          let beta := if (stand_pat <? beta)%S then stand_pat else beta in
          ms <- ask captureMoves ;;
          quiescence_loop (quiescence fuel') isMaximizingPlayer ms alpha beta
  end.

(** The two [for] loops of [minimax]; a [break] leaves the loop with the
    value found so far. *)
Fixpoint max_loop (rec : score -> score -> bool -> Search Game score)
    (ms : list Move) (maxEval alpha beta : score) : Search Game score :=
  match ms with
  | [] => ret maxEval
  | m :: rest =>
      update (fun game => move game m) ;;
      currentEval <- rec alpha beta false ;;
      update undo ;;
      let maxEval := Math_max maxEval currentEval in
      let alpha := Math_max alpha currentEval in
      if (beta <=? alpha)%S then ret maxEval
      else max_loop rec rest maxEval alpha beta
  end.

Fixpoint min_loop (rec : score -> score -> bool -> Search Game score)
    (ms : list Move) (minEval alpha beta : score) : Search Game score :=
  match ms with
  | [] => ret minEval
  | m :: rest =>
      update (fun game => move game m) ;;
      currentEval <- rec alpha beta true ;;
      update undo ;;
      let minEval := Math_min minEval currentEval in
      let beta := Math_min beta currentEval in
      if (beta <=? alpha)%S then ret minEval
      else min_loop rec rest minEval alpha beta
  end.

(** [depth] is a JavaScript number; the callers pass integers. *)
Fixpoint minimax (fuel : nat) (depth : Z) (alpha beta : score) (isMaximizingPlayer : bool)
    : Search Game score :=
  match fuel with
  | O => out_of_fuel
  | S fuel' =>
      over <- ask isGameOver ;;
      if (depth =? 0) || over then quiescence fuel' alpha beta isMaximizingPlayer
      else
        newGameMoves <- ask (fun game => sort compareMoves (moves game)) ;;
        if isMaximizingPlayer then
          max_loop (minimax fuel' (depth - 1)) newGameMoves NegInfinity alpha beta
        else
          min_loop (minimax fuel' (depth - 1)) newGameMoves Infinity alpha beta
  end.

(** The value the root driver computes for one root move, on a copy of
    the position of its own. *)
Definition rootValue (fuel : nat) (game : Game) (depth : Z) (isMaximizing : bool) (m : Move)
    : option score :=
  let gameCopy := newChess (fen game) in
  let gameCopy := move gameCopy m in
  match minimax fuel (depth - 1) NegInfinity Infinity (negb isMaximizing) gameCopy with
  | Some (boardValue, _) => Some boardValue
  | None => None
  end.

Fixpoint root_loop (fuel : nat) (game : Game) (depth : Z) (isMaximizing : bool)
    (ms : list Move) (bestMoveFound : Move) (bestValue : score) : option (Move * score) :=
  match ms with
  | [] => Some (bestMoveFound, bestValue)
  | m :: rest =>
      match rootValue fuel game depth isMaximizing m with
      | None => None
      | Some boardValue =>
          if isMaximizing then
            if (boardValue >? bestValue)%S
            then root_loop fuel game depth isMaximizing rest m boardValue
            else root_loop fuel game depth isMaximizing rest bestMoveFound bestValue
          else
            if (boardValue <? bestValue)%S
            then root_loop fuel game depth isMaximizing rest m boardValue
            else root_loop fuel game depth isMaximizing rest bestMoveFound bestValue
      end
  end.

(** The value the returned promise resolves with: [Some None] is [null];
    the outer [None] is the embedding's fuel running out. *)
Definition findBestMoveForAnalysis (fuel : nat) (game : Game) (depth : Z)
    : option (option Move) :=
  let newGameMoves := moves game in
  match newGameMoves with
  | [] => Some None
  | first :: _ =>
      let bestMoveFound := first in
      let isMaximizing := Color_eqb (turn game) White in
      let bestValue := if isMaximizing then NegInfinity else Infinity in
      match root_loop fuel game depth isMaximizing newGameMoves bestMoveFound bestValue with
      | Some (bestMoveFound, _) => Some (Some bestMoveFound)
      | None => None
      end
  end.

(** The body of [findComputerMove] for the settings of a difficulty.
    [random1] and [random2] are the results of the first and of the second
    call of [Math.random()], each a double in [0, 1); the error rates are
    read as exact rationals.  The index is the floor of the double product
    [random2 * length].  An index outside the array reads [undefined], which
    is [None] here. *)
Definition findComputerMoveWith (settings : Settings) (fuel : nat) (game : Game)
    (random1 random2 : Q) : option (option Move) :=
  match findBestMoveForAnalysis fuel game (depth settings) with
  | None => None
  | Some None => Some None
  | Some (Some bestMoveFound) =>
      let allMoves := moves game in
      if (1 <? List.length allMoves)%nat && negb (Qle_bool (errorRate settings) random1) then
        let nonBestMoves :=
          filter (fun m => negb (String.eqb (san m) (san bestMoveFound))) allMoves in
        if (0 <? List.length nonBestMoves)%nat then
          Some (nth_error nonBestMoves
                  (Z.to_nat (Qfloor (round64
                     (random2 * inject_Z (Z.of_nat (List.length nonBestMoves)))))))
        else Some (Some bestMoveFound)
      else Some (Some bestMoveFound)
  end.

Definition findComputerMove (fuel : nat) (game : Game) (difficulty : Difficulty)
    (random1 random2 : Q) : option (option Move) :=
  findComputerMoveWith (difficultySettings difficulty) fuel game random1 random2.

End Engine.

(** The display value is a quotient by 100: a rational, or an infinity.  The
    quotient is read as the exact rational; rounding to a double is monotone
    and -10 and 10 are doubles, so the bounds below hold of the double too. *)
Inductive number : Type :=
| NegInfinityN : number
| Num : Q -> number
| InfinityN : number.

Definition divide (s : score) (d : Z) : number :=
  match s with
  | NegInfinity => NegInfinityN
  | Finite z => Num (inject_Z z / inject_Z d)
  | Infinity => InfinityN
  end.

Definition number_ltb (a b0 : number) : bool :=
  match a, b0 with
  | NegInfinityN, NegInfinityN => false
  | NegInfinityN, _ => true
  | _, NegInfinityN => false
  | InfinityN, _ => false
  | _, InfinityN => true
  | Num x, Num y => negb (Qle_bool y x)
  end.

Definition Math_maxN (a b0 : number) : number := if number_ltb a b0 then b0 else a.
Definition Math_minN (a b0 : number) : number := if number_ltb b0 a then b0 else a.

Section Reporter.
Context {Game : Type} `{ChessEngine Game}.

Definition getEvaluation (game : Game) : number :=
  let rawEval := evaluateBoard game in
  let pawnAdvantage := divide rawEval 100 in
  Math_maxN (Num (-10 # 1)) (Math_minN (Num (10 # 1)) pawnAdvantage).

End Reporter.

(* ================================================================== *)
(** ** Two concrete rules engines *)

(** A finite game tree with an undo stack: a position lists what the rules
    engine reports about it and, for each legal move, the position the move
    leads to.  [move] looks the move up by its SAN and pushes the current
    position; [undo] pops it. *)
Module Toy.

Record Info : Type := mkInfo {
  checkmate : bool;
  draw : bool;
  over : bool;
  side : Color;
  squares : Board
}.

#[warnings="-register-all"]
Inductive Tree : Type :=
| Node : Info -> list (Move * Tree) -> Tree.

Definition info (t : Tree) : Info := match t with Node i _ => i end.
Definition children (t : Tree) : list (Move * Tree) := match t with Node _ cs => cs end.

Definition Game : Type := (Tree * list Tree)%type.

Fixpoint find_child (s : string) (cs : list (Move * Tree)) : option Tree :=
  match cs with
  | [] => None
  | (m, t) :: rest => if String.eqb (san m) s then Some t else find_child s rest
  end.

Definition play (game : Game) (m : Move) : Game :=
  match find_child (san m) (children (fst game)) with
  | Some t => (t, fst game :: snd game)
  | None => game
  end.

Definition takeback (game : Game) : Game :=
  match snd game with
  | [] => game
  | t :: rest => (t, rest)
  end.

#[global] Instance engine : ChessEngine Game := {|
  Fen := Tree;
  isCheckmate := fun game => checkmate (info (fst game));
  isDraw := fun game => draw (info (fst game));
  isGameOver := fun game => over (info (fst game));
  turn := fun game => side (info (fst game));
  board := fun game => squares (info (fst game));
  moves := fun game => map fst (children (fst game));
  move := play;
  undo := takeback;
  fen := fun game => fst game;
  newChess := fun t => (t, [])
|}.

(** The number of plies the longest line from a position can last. *)
Fixpoint height (t : Tree) : nat :=
  match t with
  | Node _ cs => fold_right Nat.max O (map (fun c => S (height (snd c))) cs)
  end.

Definition start (t : Tree) : Game := (t, []).

(** Boards are written by placing pieces on the empty board. *)
Definition emptyBoard : Board := repeat (repeat None 8) 8.

Fixpoint set_nth {A : Type} (i : nat) (x : A) (l : list A) : list A :=
  match l, i with
  | [], _ => []
  | _ :: rest, O => x :: rest
  | y :: rest, S i' => y :: set_nth i' x rest
  end.

Definition put (rowIndex colIndex : nat) (c : Color) (t : PieceSymbol) (bd : Board) : Board :=
  set_nth rowIndex (set_nth colIndex (Some (mkPiece c t)) (nth rowIndex bd [])) bd.

Definition quiet (s : string) (t : PieceSymbol) : Move := mkMove t None None "n" s.
Definition capture (s : string) (t x : PieceSymbol) : Move := mkMove t (Some x) None "c" s.
Definition enPassant (s : string) : Move := mkMove Pawn (Some Pawn) None "e" s.

End Toy.

(** A game with one position and one quiet move that leads back to it: it
    is never over. *)
Module Loop.

Definition shuffle : Move := mkMove King None None "n" "Kh1".

#[global] Instance engine : ChessEngine unit := {|
  Fen := unit;
  isCheckmate := fun _ => false;
  isDraw := fun _ => false;
  isGameOver := fun _ => false;
  turn := fun _ => White;
  board := fun _ => Toy.emptyBoard;
  moves := fun _ => [shuffle];
  move := fun game _ => game;
  undo := fun game => game;
  fen := fun game => game;
  newChess := fun game => game
|}.

End Loop.

(* ================================================================== *)
(** ** The color-mirrored position *)

Definition swapColor (c : Color) : Color :=
  match c with White => Black | Black => White end.

Definition swapPiece (pc : Piece) : Piece := mkPiece (swapColor (color pc)) (type pc).

(** All pieces reflected across the horizontal midline, colors swapped. *)
Definition mirrorBoard (bd : Board) : Board :=
  rev (map (map (option_map swapPiece)) bd).

(** Whether the rows of a table read the same from both ends. *)
Definition verticallySymmetric (t : Table) : Prop := rev t = t.

(* ================================================================== *)
(** ** The exhaustive search

    The search the pruning is compared with, written from the
    specification's words: an "exhaustive (non-pruned) minimax search" of the
    same depth.  It has no window, no cutoff and no move ordering: the
    value of a node is the maximum (for the maximizing side) or the minimum
    of the values of all its children, and at the leaves the side to move
    may stand pat or make any capture. *)

Fixpoint best_of (isMaximizingPlayer : bool) (best : score) (vals : list (option score))
    : option score :=
  match vals with
  | [] => Some best
  | None :: _ => None
  | Some v :: rest =>
      best_of isMaximizingPlayer
        (if isMaximizingPlayer then Math_max best v else Math_min best v) rest
  end.

Section Exhaustive.
Context {Game : Type} `{ChessEngine Game}.

Fixpoint quiescenceFull (fuel : nat) (isMaximizingPlayer : bool) (game : Game) : option score :=
  match fuel with
  | O => None
  | S fuel' =>
      best_of isMaximizingPlayer (evaluateBoard game)
        (map (fun m => quiescenceFull fuel' (negb isMaximizingPlayer) (move game m))
             (filter (fun m => includes (flags m) "c") (moves game)))
  end.

Fixpoint minimaxFull (fuel : nat) (depth : Z) (isMaximizingPlayer : bool) (game : Game)
    : option score :=
  match fuel with
  | O => None
  | S fuel' =>
      if (depth =? 0) || isGameOver game then quiescenceFull fuel' isMaximizingPlayer game
      else
        best_of isMaximizingPlayer (if isMaximizingPlayer then NegInfinity else Infinity)
          (map (fun m => minimaxFull fuel' (depth - 1) (negb isMaximizingPlayer) (move game m))
               (moves game))
  end.

End Exhaustive.

(* ================================================================== *)
(** ** Engine contracts

    What the search relies on from the rules engine. *)

Section Contracts.
Context {Game : Type} `{ChessEngine Game}.

(** [undo] after a legal [move] restores the state exactly. *)
Definition undo_restores : Prop :=
  forall (game : Game) (m : Move), In m (moves game) -> undo (move game m) = game.

(** A measure (the number of pieces on the board, for chess) that no legal
    move increases and that every move flagged as a capture decreases. *)
Definition captures_shrink (mu : Game -> nat) : Prop :=
  forall (game : Game) (m : Move), In m (moves game) ->
    (mu (move game m) <= mu game)%nat /\
    (includes (flags m) "c" = true -> (mu (move game m) < mu game)%nat).

(** The SAN of a legal move names it. *)
Definition san_unambiguous (game : Game) : Prop := NoDup (map san (moves game)).

End Contracts.

(* ================================================================== *)
(** ** Example positions

    Rows are ranks 8 down to 1 and columns are files a to h, as in the board
    snapshot of the rules engine: e1 is row 7, column 4. *)

Module Examples.
Import Toy.

Definition setup (pieces : list (nat * nat * Color * PieceSymbol)) : Board :=
  fold_right (fun '(rowIndex, colIndex, c, t) bd => put rowIndex colIndex c t bd)
    emptyBoard pieces.

Definition position (c : Color) (bd : Board) (cs : list (Move * Tree)) : Tree :=
  Node (mkInfo false false false c bd) cs.

(** White: Ke1, Nd2, a2.  Black: Ke8.  White to move. *)
Definition knightBoard : Board :=
  setup [ (7, 4, White, King); (6, 3, White, Knight); (6, 0, White, Pawn);
          (0, 4, Black, King) ]%nat.
Definition knightPosition : Game := start (position White knightBoard []).
Definition knightPositionMirrored : Game :=
  start (position Black (mirrorBoard knightBoard) []).

(** White: Ke1, Qa5.  Black: Ke8. *)
Definition queenBoard : Board :=
  setup [ (7, 4, White, King); (3, 0, White, Queen); (0, 4, Black, King) ]%nat.

(** White to move and mated; Black to move and mated. *)
Definition whiteMated : Game :=
  start (Node (mkInfo true false true White
                 (setup [ (7, 7, White, King); (6, 6, Black, Queen); (5, 5, Black, King) ]%nat))
              []).
Definition blackMated : Game :=
  start (Node (mkInfo true false true Black
                 (setup [ (0, 7, Black, King); (1, 6, White, Queen); (2, 5, White, King) ]%nat))
              []).

(** A middle game.  White: Ke1, Bc4, Ng1, e5.  Black: Ke8, f7, d5 (the
    d-pawn has just made its double step).  White may develop the knight,
    take on f7 or take en passant; the positions two plies down list
    their captures only. *)
Definition bd0 : Board :=
  setup [ (7, 4, White, King); (4, 2, White, Bishop); (7, 6, White, Knight);
          (3, 4, White, Pawn); (0, 4, Black, King); (1, 5, Black, Pawn);
          (3, 3, Black, Pawn) ]%nat.
Definition bdNf3 : Board :=
  setup [ (7, 4, White, King); (4, 2, White, Bishop); (5, 5, White, Knight);
          (3, 4, White, Pawn); (0, 4, Black, King); (1, 5, Black, Pawn);
          (3, 3, Black, Pawn) ]%nat.
Definition bdNf3_d4 : Board :=
  setup [ (7, 4, White, King); (4, 2, White, Bishop); (5, 5, White, Knight);
          (3, 4, White, Pawn); (0, 4, Black, King); (1, 5, Black, Pawn);
          (4, 3, Black, Pawn) ]%nat.
Definition bdNf3_dxc4 : Board :=
  setup [ (7, 4, White, King); (5, 5, White, Knight);
          (3, 4, White, Pawn); (0, 4, Black, King); (1, 5, Black, Pawn);
          (4, 2, Black, Pawn) ]%nat.
Definition bdBxf7 : Board :=
  setup [ (7, 4, White, King); (1, 5, White, Bishop); (7, 6, White, Knight);
          (3, 4, White, Pawn); (0, 4, Black, King); (3, 3, Black, Pawn) ]%nat.
Definition bdBxf7_Kxf7 : Board :=
  setup [ (7, 4, White, King); (7, 6, White, Knight);
          (3, 4, White, Pawn); (1, 5, Black, King); (3, 3, Black, Pawn) ]%nat.
Definition bdExd6 : Board :=
  setup [ (7, 4, White, King); (4, 2, White, Bishop); (7, 6, White, Knight);
          (2, 3, White, Pawn); (0, 4, Black, King); (1, 5, Black, Pawn) ]%nat.
Definition bdExd6_Kd7 : Board :=
  setup [ (7, 4, White, King); (4, 2, White, Bishop); (7, 6, White, Knight);
          (2, 3, White, Pawn); (1, 3, Black, King); (1, 5, Black, Pawn) ]%nat.

Definition Nf3 : Move := quiet "Nf3" Knight.
Definition Bxf7 : Move := capture "Bxf7+" Bishop Pawn.
Definition exd6 : Move := enPassant "exd6".

Definition afterNf3 : Tree :=
  position Black bdNf3
    [ (quiet "d4" Pawn, position White bdNf3_d4 []);
      (capture "dxc4" Pawn Bishop, position White bdNf3_dxc4 []) ].

Definition afterBxf7 : Tree :=
  position Black bdBxf7
    [ (capture "Kxf7" King Bishop, position White bdBxf7_Kxf7 []) ].

Definition afterExd6 : Tree :=
  position Black bdExd6
    [ (quiet "Kd7" King, position White bdExd6_Kd7 []) ].

Definition middle : Tree :=
  position White bd0 [ (Nf3, afterNf3); (Bxf7, afterBxf7); (exd6, afterExd6) ].

Definition middleGame : Game := start middle.


(** A trap.  White: Kh1, Qd1, g2, h2.  Black: Kg8, Ra8.  After [Qd7] the
    queen stands better, but [Ra1+] forces [Qd1] and [Rxd1#] mates; the
    quiet [h3] leads to a drawn ending.  Every line ends in a finished
    game. *)
Definition bdTrap : Board :=
  setup [ (7, 7, White, King); (7, 3, White, Queen); (6, 6, White, Pawn);
          (6, 7, White, Pawn); (0, 6, Black, King); (0, 0, Black, Rook) ]%nat.
Definition bdTrapQd7 : Board :=
  setup [ (7, 7, White, King); (1, 3, White, Queen); (6, 6, White, Pawn);
          (6, 7, White, Pawn); (0, 6, Black, King); (0, 0, Black, Rook) ]%nat.
Definition bdTrapRa1 : Board :=
  setup [ (7, 7, White, King); (1, 3, White, Queen); (6, 6, White, Pawn);
          (6, 7, White, Pawn); (0, 6, Black, King); (7, 0, Black, Rook) ]%nat.
Definition bdTrapQd1 : Board :=
  setup [ (7, 7, White, King); (7, 3, White, Queen); (6, 6, White, Pawn);
          (6, 7, White, Pawn); (0, 6, Black, King); (7, 0, Black, Rook) ]%nat.
Definition bdTrapMate : Board :=
  setup [ (7, 7, White, King); (6, 6, White, Pawn);
          (6, 7, White, Pawn); (0, 6, Black, King); (7, 3, Black, Rook) ]%nat.
Definition bdTrapH3 : Board :=
  setup [ (7, 7, White, King); (7, 3, White, Queen); (6, 6, White, Pawn);
          (5, 7, White, Pawn); (0, 6, Black, King); (0, 0, Black, Rook) ]%nat.

Definition trap : Game :=
  start (position White bdTrap
    [ (quiet "Qd7" Queen,
       position Black bdTrapQd7
         [ (quiet "Ra1+" Rook,
            position White bdTrapRa1
              [ (quiet "Qd1" Queen,
                 position Black bdTrapQd1
                   [ (capture "Rxd1#" Rook Queen,
                      Node (mkInfo true false true White bdTrapMate) []) ]) ]) ]);
      (quiet "h3" Pawn,
       position Black bdTrapH3
         [ (quiet "Kh8" King, Node (mkInfo false true true White bdTrapH3) []) ]) ]).

(** A difficulty that always errs, and one that never does. *)
Definition alwaysErr : Settings := mkSettings 2 1.
Definition neverErr : Settings := mkSettings 2 0.

(** White: Ke1, Ra1, e4.  Black: Ke8, Bc8.  No knight, no queen. *)
Definition rookBoard : Board :=
  setup [ (7, 4, White, King); (7, 0, White, Rook); (4, 4, White, Pawn);
          (0, 4, Black, King); (0, 2, Black, Bishop) ]%nat.
Definition rookPosition : Game := start (position White rookBoard []).
Definition rookPositionMirrored : Game :=
  start (position Black (mirrorBoard rookBoard) []).

(** A mate in one.  White: Kg1, Qd1, g2, h2.  Black: Kg8, f7, g7, h7.  The
    king move is quiet; [Qd8#] mates on the back rank. *)
Definition bdBackRank : Board :=
  setup [ (7, 6, White, King); (7, 3, White, Queen); (6, 6, White, Pawn);
          (6, 7, White, Pawn); (0, 6, Black, King); (1, 5, Black, Pawn);
          (1, 6, Black, Pawn); (1, 7, Black, Pawn) ]%nat.
Definition bdBackRankKf1 : Board :=
  setup [ (7, 5, White, King); (7, 3, White, Queen); (6, 6, White, Pawn);
          (6, 7, White, Pawn); (0, 6, Black, King); (1, 5, Black, Pawn);
          (1, 6, Black, Pawn); (1, 7, Black, Pawn) ]%nat.
Definition bdBackRankMate : Board :=
  setup [ (7, 6, White, King); (0, 3, White, Queen); (6, 6, White, Pawn);
          (6, 7, White, Pawn); (0, 6, Black, King); (1, 5, Black, Pawn);
          (1, 6, Black, Pawn); (1, 7, Black, Pawn) ]%nat.

Definition Kf1 : Move := quiet "Kf1" King.
Definition Qd8 : Move := quiet "Qd8#" Queen.

Definition mateInOne : Game :=
  start (position White bdBackRank
           [ (Kf1, position Black bdBackRankKf1 []);
             (Qd8, Node (mkInfo true false true Black bdBackRankMate) []) ]).

(** A tier that errs four times out of five, at depth 2. *)
Definition oftenErr : Settings := mkSettings 2 (8 # 10).

End Examples.

(** The rules engine with the en-passant captures (flags ["e"]) taken out
    of its move lists. *)
Definition withoutEnPassant {Game : Type} (E : ChessEngine Game) : ChessEngine Game := {|
  Fen := @Fen Game E;
  isCheckmate := @isCheckmate Game E;
  isDraw := @isDraw Game E;
  isGameOver := @isGameOver Game E;
  turn := @turn Game E;
  board := @board Game E;
  moves := fun game => filter (fun m => negb (String.eqb (flags m) "e")) (@moves Game E game);
  move := @move Game E;
  undo := @undo Game E;
  fen := @fen Game E;
  newChess := @newChess Game E
|}.

(* ================================================================== *)
(** ** Notions used in the statements *)

(** [v] lies in the closed window [[alpha, beta]]. *)
Definition in_window (alpha beta v : score) : Prop :=
  score_le alpha v /\ score_le v beta.

(** The value a fail-hard search returns for the true value [v]. *)
Definition clamp (alpha beta v : score) : score := Math_max alpha (Math_min beta v).

(** What a fail-soft search with fail-hard leaves says about the true value
    [T] when it returns [v] on the window [(alpha, beta)]. *)
Definition bounds (alpha beta v T : score) : Prop :=
  (score_le v alpha -> score_le T alpha) /\
  (score_le beta v -> score_le beta T) /\
  (score_lt alpha v -> score_lt v beta -> v = T).

(** [v] is strictly better than [w] for the side the root maximizes for. *)
Definition strictlyBetter (isMaximizing : bool) (v w : score) : bool :=
  if isMaximizing then (v >? w)%S else (v <? w)%S.

(** A square that holds neither a knight nor a queen. *)
Definition noKnightQueen (sq : option Piece) : bool :=
  match sq with
  | Some pc => match type pc with Knight | Queen => false | _ => true end
  | None => true
  end.

(** The contribution of a row, from column [colIndex] on, and of the rows of
    a board, from row [rowIndex] on. *)
Fixpoint rowSum (rowIndex colIndex : nat) (row : list (option Piece)) : Z :=
  match row with
  | [] => 0
  | sq :: rest => squareValue sq rowIndex colIndex + rowSum rowIndex (S colIndex) rest
  end.

Fixpoint boardSum (rowIndex : nat) (bd : Board) : Z :=
  match bd with
  | [] => 0
  | row :: rest => rowSum rowIndex 0 row + boardSum (S rowIndex) rest
  end.

(** A list in which every element weighs at least as much as the ones
    after it. *)
Definition descending {A : Type} (key : A -> Z) (l : list A) : Prop :=
  StronglySorted (fun a c => key c <= key a) l.

(** The largest weight a square can carry: the king's value and the
    largest table entry. *)
Definition squareBound : Z := 20050.

Section Notions.
Context {Game : Type} `{ChessEngine Game}.

(** A search that leaves the position as it found it. *)
Definition restoring (rec : score -> score -> bool -> Search Game score) : Prop :=
  forall alpha beta mx game v game', rec alpha beta mx game = Some (v, game') -> game' = game.

(** The recursive call returns on every position a move of [ms] leads to. *)
Definition returns_on (rec : score -> score -> bool -> Search Game score)
    (game : Game) (ms : list Move) : Prop :=
  forall m, In m ms -> In m (moves game) /\
    forall alpha beta mx, exists v, rec alpha beta mx (move game m) = Some (v, move game m).

(** The fuel that is enough for every root move, for the measure [mu]. *)
Definition rootFuel (mu : Game -> nat) (game : Game) (depth : Z) : nat :=
  S (fold_right Nat.max O
       (map (fun m => (Z.to_nat (depth - 1) + mu (move (newChess (fen game)) m) + 1)%nat)
            (moves game))).

(** On the positions the moves of [ms] lead to, [rec] returns the clamp
    of the exhaustive value [full] and restores the position. *)
Definition clamps (rec : score -> score -> bool -> Search Game score)
    (full : bool -> Game -> option score) (game : Game) (ms : list Move) : Prop :=
  forall m, In m ms -> In m (moves game) /\
    forall mx T alpha beta,
      full mx (move game m) = Some T -> score_le alpha beta ->
      rec alpha beta mx (move game m) = Some (clamp alpha beta T, move game m).

(** On the positions the moves of [ms] lead to, [rec] returns a value
    that bounds the exhaustive value [full] and restores the position. *)
Definition sound_on (rec : score -> score -> bool -> Search Game score)
    (full : bool -> Game -> option score) (game : Game) (ms : list Move) : Prop :=
  forall m, In m ms -> In m (moves game) /\
    forall mx T alpha beta,
      full mx (move game m) = Some T -> score_lt alpha beta ->
      exists v, rec alpha beta mx (move game m) = Some (v, move game m) /\
                bounds alpha beta v T.

(** What the root loop knows after the moves [done]: either nothing has
    been selected yet and every value so far is the worst one, or [best]
    is the first of the moves so far with the best value so far. *)
Definition selected (fuel : nat) (game : Game) (depth : Z) (isMax : bool)
    (done : list Move) (best : Move) (bestValue : score) : Prop :=
  (bestValue = (if isMax then NegInfinity else Infinity) /\
   forall m, In m done ->
     rootValue fuel game depth isMax m = Some (if isMax then NegInfinity else Infinity)) \/
  (exists pre post,
      done = pre ++ best :: post /\
      rootValue fuel game depth isMax best = Some bestValue /\
      (forall m, In m pre ->
         exists v, rootValue fuel game depth isMax m = Some v /\
                   strictlyBetter isMax bestValue v = true) /\
      (forall m, In m post ->
         exists v, rootValue fuel game depth isMax m = Some v /\
                   strictlyBetter isMax v bestValue = false)).

(** The moves the selector draws from when it errs. *)
Definition alternatives (game : Game) (best : Move) : list Move :=
  filter (fun m => negb (String.eqb (san m) (san best))) (moves game).

End Notions.

(* ================================================================== *)
(** * Properties *)

(** ** Order on scores *)

Ltac score_prep :=
  unfold score_le, score_lt, Math_max, Math_min, score_ltb, score_leb in *.

Ltac score_bool :=
  repeat match goal with
  | H : context [Z.leb ?x ?y] |- _ =>
      let E := fresh "E" in
      destruct (Z.leb x y) eqn:E in *; [apply Z.leb_le in E | apply Z.leb_gt in E];
      simpl in *
  | |- context [Z.leb ?x ?y] =>
      let E := fresh "E" in
      destruct (Z.leb x y) eqn:E in *; [apply Z.leb_le in E | apply Z.leb_gt in E];
      simpl in *
  end.

Ltac score_solve :=
  score_prep; intros;
  repeat match goal with x : score |- _ => destruct x end;
  simpl in *;
  repeat match goal with
         | |- _ /\ _ => split
         | |- _ -> _ => intro
         end;
  score_bool; simpl in *;
  repeat match goal with
         | Heq : Finite _ = Finite _ |- _ => injection Heq as Heq
         end;
  try solve [ congruence | lia | discriminate | reflexivity | f_equal; lia ].

Lemma score_leb_refl (a : score) : score_leb a a = true.
Proof. score_solve. Qed.

Lemma score_ltb_leb (a c : score) : score_ltb a c = true -> score_leb a c = true.
Proof. score_solve. Qed.

Lemma Math_max_comm (a c : score) : Math_max a c = Math_max c a.
Proof. score_solve. Qed.

Lemma Math_min_comm (a c : score) : Math_min a c = Math_min c a.
Proof. score_solve. Qed.

Lemma Math_max_assoc (a c d : score) : Math_max (Math_max a c) d = Math_max a (Math_max c d).
Proof. score_solve. Qed.

Lemma Math_min_assoc (a c d : score) : Math_min (Math_min a c) d = Math_min a (Math_min c d).
Proof. score_solve. Qed.

(** ** The static evaluator *)

Section EvaluatorFacts.
Context {Game : Type} `{ChessEngine Game}.

(** C4: on a checkmate position [evaluateBoard] returns the
    extreme-negative sentinel when White is to move and the
    extreme-positive one when Black is to move.  The equation holds
    whatever the board and the draw status are: the branch is taken before
    the draw test and before any summation. *)
Theorem evaluateBoard_checkmate (game : Game) :
  isCheckmate game = true ->
  evaluateBoard game = match turn game with
                       | White => NegInfinity
                       | Black => Infinity
                       end.
Proof.
  intros Hmate. unfold evaluateBoard. rewrite Hmate.
  destruct (turn game); reflexivity.
Qed.

Lemma evaluateBoard_not_mate (game : Game) :
  isCheckmate game = false ->
  exists z, evaluateBoard game = Finite z.
Proof.
  intros Hmate. unfold evaluateBoard. rewrite Hmate.
  destruct (isDraw game); eauto.
Qed.

End EvaluatorFacts.

Lemma evaluateBoard_checkmate_witness :
  evaluateBoard Examples.whiteMated = NegInfinity /\
  evaluateBoard Examples.blackMated = Infinity.
Proof.
  split.
  - exact (evaluateBoard_checkmate Examples.whiteMated eq_refl).
  - exact (evaluateBoard_checkmate Examples.blackMated eq_refl).
Defined.

(** The tables of the pieces that have a table per color: the Black table
    is the White table read from the other end. *)
Lemma mirrored_tables (rowIndex colIndex : nat) :
  (rowIndex < 8)%nat ->
  lookup pawnEvalBlack rowIndex colIndex = lookup pawnEvalWhite (7 - rowIndex) colIndex /\
  lookup bishopEvalBlack rowIndex colIndex = lookup bishopEvalWhite (7 - rowIndex) colIndex /\
  lookup rookEvalBlack rowIndex colIndex = lookup rookEvalWhite (7 - rowIndex) colIndex /\
  lookup kingEvalBlack rowIndex colIndex = lookup kingEvalWhite (7 - rowIndex) colIndex.
Proof.
  intros Hr.
  do 8 (destruct rowIndex as [|rowIndex]; [repeat split; reflexivity|]).
  lia.
Qed.

(** The board total as a sum over the squares. *)
Lemma row_total (rowIndex : nat) (row : list (option Piece)) :
  forall colIndex acc,
    forEach_from (fun totalEvaluation sq colIndex =>
                    match sq with
                    | Some _ => totalEvaluation + squareValue sq rowIndex colIndex
                    | None => totalEvaluation
                    end) colIndex row acc
    = acc + rowSum rowIndex colIndex row.
Proof.
  induction row as [|sq rest IH]; intros colIndex acc; simpl; [lia|].
  rewrite IH. destruct sq; simpl; lia.
Qed.

Lemma board_total (bd : Board) :
  forall rowIndex acc,
    forEach_from (fun totalEvaluation row rowIndex =>
                    forEach (fun totalEvaluation sq colIndex =>
                               match sq with
                               | Some _ => totalEvaluation + squareValue sq rowIndex colIndex
                               | None => totalEvaluation
                               end) row totalEvaluation) rowIndex bd acc
    = acc + boardSum rowIndex bd.
Proof.
  induction bd as [|row rest IH]; intros rowIndex acc; simpl; [lia|].
  rewrite IH. unfold forEach. rewrite row_total. lia.
Qed.

Lemma boardTotal_boardSum (bd : Board) : boardTotal bd = boardSum 0 bd.
Proof. unfold boardTotal, forEach. rewrite board_total. lia. Qed.

(** Away from the knight and queen tables a piece and its mirror image
    weigh the same with opposite signs. *)
Lemma squareValue_mirror (sq : option Piece) (rowIndex colIndex : nat) :
  (rowIndex < 8)%nat -> (colIndex < 8)%nat -> noKnightQueen sq = true ->
  squareValue (option_map swapPiece sq) (7 - rowIndex) colIndex
  = - squareValue sq rowIndex colIndex.
Proof.
  intros Hr Hc Hsq.
  do 8 (destruct rowIndex as [|rowIndex]; [
    do 8 (destruct colIndex as [|colIndex]; [
      destruct sq as [[[] []]|]; try discriminate; reflexivity |]); lia |]).
  lia.
Qed.

Lemma rowSum_mirror (row : list (option Piece)) (rowIndex : nat) :
  (rowIndex < 8)%nat ->
  forall colIndex,
    (colIndex + List.length row <= 8)%nat ->
    forallb noKnightQueen row = true ->
    rowSum (7 - rowIndex) colIndex (map (option_map swapPiece) row)
    = - rowSum rowIndex colIndex row.
Proof.
  intros Hr. induction row as [|sq rest IH]; intros colIndex Hlen Hrow;
    cbn [rowSum map List.length forallb] in *; [lia|].
  apply andb_true_iff in Hrow. destruct Hrow as [Hsq Hrest].
  rewrite squareValue_mirror by (trivial; lia).
  rewrite IH by (trivial; lia). lia.
Qed.

(** On a board without knights and queens the sum is antisymmetric under
    the color mirror: the defect of C1 is confined to the two shared
    tables. *)
Lemma boardTotal_mirror (bd : Board) :
  board_wf bd ->
  forallb (forallb noKnightQueen) bd = true ->
  boardTotal (mirrorBoard bd) = - boardTotal bd.
Proof.
  intros [Hlen Hrows] Hfree. rewrite !boardTotal_boardSum. unfold mirrorBoard.
  destruct bd as [|r0 [|r1 [|r2 [|r3 [|r4 [|r5 [|r6 [|r7 [|]]]]]]]]]; try discriminate Hlen.
  repeat match goal with
         | Hf : Forall _ (_ :: _) |- _ => inversion Hf; clear Hf; subst
         end.
  cbn [forallb] in Hfree.
  repeat match goal with
         | Hf : _ && _ = true |- _ => apply andb_true_iff in Hf; destruct Hf
         end.
  cbn [map rev app boardSum].
  rewrite (@rowSum_mirror r7 7), (@rowSum_mirror r6 6), (@rowSum_mirror r5 5),
          (@rowSum_mirror r4 4), (@rowSum_mirror r3 3), (@rowSum_mirror r2 2),
          (@rowSum_mirror r1 1), (@rowSum_mirror r0 0) by (trivial; lia).
  lia.
Qed.

(** X1: on a well-formed board without knights and queens the evaluation
    is antisymmetric under the color mirror: a position whose board is the
    mirror image, whose side to move is the other one and whose checkmate
    and draw status are the same evaluates to the negated score. *)
Lemma evaluateBoard_mirror {Game : Type} `{ChessEngine Game} (game game' : Game) :
  isCheckmate game' = isCheckmate game ->
  isDraw game' = isDraw game ->
  turn game' = swapColor (turn game) ->
  board game' = mirrorBoard (board game) ->
  board_wf (board game) ->
  forallb (forallb noKnightQueen) (board game) = true ->
  evaluateBoard game' = score_neg (evaluateBoard game).
Proof.
  intros Hmate Hdraw Hturn Hboard Hwf Hfree. unfold evaluateBoard.
  rewrite Hmate, Hdraw, Hturn, Hboard.
  destruct (isCheckmate game); [destruct (turn game); reflexivity|].
  destruct (isDraw game); [reflexivity|].
  rewrite (boardTotal_mirror Hwf Hfree). reflexivity.
Qed.

(** C1: the evaluation is not antisymmetric under color mirroring.  The
    knight and queen tables are read with the same row index for both
    colors and their rows do not read the same from both ends: a white
    knight on d2 (row 6) gets +5, the mirrored black knight on d7 (row 1)
    gets 0. *)
Theorem evaluateBoard_mirror_knight :
  board Examples.knightPositionMirrored = mirrorBoard (board Examples.knightPosition) /\
  turn Examples.knightPositionMirrored = swapColor (turn Examples.knightPosition) /\
  evaluateBoard Examples.knightPosition = Finite 430 /\
  evaluateBoard Examples.knightPositionMirrored = Finite (-425) /\
  evaluateBoard Examples.knightPosition
    <> score_neg (evaluateBoard Examples.knightPositionMirrored) /\
  ~ verticallySymmetric knightEval /\
  ~ verticallySymmetric queenEval /\
  boardTotal (mirrorBoard Examples.queenBoard) <> - boardTotal Examples.queenBoard.
Proof.
  split; [reflexivity|]. split; [reflexivity|].
  split; [reflexivity|]. split; [reflexivity|].
  split; [vm_compute; discriminate|].
  split; [unfold verticallySymmetric; vm_compute; discriminate|].
  split; [unfold verticallySymmetric; vm_compute; discriminate|].
  vm_compute; discriminate.
Qed.

(** ** The evaluation reporter *)

Section ReporterFacts.
Context {Game : Type} `{ChessEngine Game}.

Lemma clamp_range (v : number) :
  exists x, Math_maxN (Num (-10 # 1)) (Math_minN (Num (10 # 1)) v) = Num x /\
            (-10 # 1 <= x)%Q /\ (x <= 10 # 1)%Q.
Proof.
  destruct v as [|y|]; unfold Math_maxN, Math_minN; simpl.
  - exists (-10 # 1). repeat split; unfold Qle; simpl; lia.
  - destruct (Qle_bool (10 # 1) y) eqn:Hhi; simpl.
    + exists (10 # 1). repeat split; unfold Qle; simpl; lia.
    + destruct (Qle_bool y (-10 # 1)) eqn:Hlo; simpl.
      * exists (-10 # 1). repeat split; unfold Qle; simpl; lia.
      * exists y. repeat split.
        -- destruct (Qlt_le_dec y (-10 # 1)) as [Hlt|Hle]; [|exact Hle].
           apply Qlt_le_weak, Qle_bool_iff in Hlt. congruence.
        -- destruct (Qlt_le_dec (10 # 1) y) as [Hlt|Hle]; [|exact Hle].
           apply Qlt_le_weak, Qle_bool_iff in Hlt. congruence.
  - exists (10 # 1). repeat split; unfold Qle; simpl; lia.
Qed.

(** C5: [getEvaluation] is the clamp of [evaluateBoard / 100]: it is a
    finite number between -10 and 10, and the two checkmate sentinels
    give exactly -10 and 10. *)
Theorem getEvaluation_clamped (game : Game) :
  getEvaluation game
    = Math_maxN (Num (-10 # 1)) (Math_minN (Num (10 # 1)) (divide (evaluateBoard game) 100)) /\
  (exists x, getEvaluation game = Num x /\ (-10 # 1 <= x)%Q /\ (x <= 10 # 1)%Q) /\
  (evaluateBoard game = NegInfinity -> getEvaluation game = Num (-10 # 1)) /\
  (evaluateBoard game = Infinity -> getEvaluation game = Num (10 # 1)).
Proof.
  split; [reflexivity|]. split; [apply clamp_range|].
  unfold getEvaluation. split; intros ->; reflexivity.
Qed.

End ReporterFacts.

Lemma getEvaluation_clamped_witness :
  evaluateBoard Examples.whiteMated = NegInfinity /\
  getEvaluation Examples.whiteMated = Num (-10 # 1) /\
  evaluateBoard Examples.blackMated = Infinity /\
  getEvaluation Examples.blackMated = Num (10 # 1).
Proof.
  split; [reflexivity|]. split.
  - apply (proj1 (proj2 (proj2 (getEvaluation_clamped Examples.whiteMated)))). reflexivity.
  - split; [reflexivity|].
    apply (proj2 (proj2 (proj2 (getEvaluation_clamped Examples.blackMated)))). reflexivity.
Defined.

(** ** Sorting *)

Lemma sort_insert_perm {A : Type} (cmp : A -> A -> Z) (x : A) (l : list A) :
  Permutation (sort_insert cmp x l) (x :: l).
Proof.
  induction l as [|y rest IH]; simpl.
  - apply Permutation_refl.
  - destruct (cmp x y <=? 0).
    + apply Permutation_refl.
    + eapply Permutation_trans; [apply perm_skip, IH | apply perm_swap].
Qed.

Lemma sort_perm {A : Type} (cmp : A -> A -> Z) (l : list A) :
  Permutation (sort cmp l) l.
Proof.
  induction l as [|x rest IH]; simpl.
  - apply Permutation_refl.
  - eapply Permutation_trans; [apply sort_insert_perm | apply perm_skip, IH].
Qed.

Lemma sort_In {A : Type} (cmp : A -> A -> Z) (l : list A) (x : A) :
  In x (sort cmp l) <-> In x l.
Proof.
  split; apply Permutation_in; [|apply Permutation_sym]; apply sort_perm.
Qed.

(** ** The search, one step at a time *)

Section Unfolding.
Context {Game : Type} `{ChessEngine Game}.

Lemma quiescence_S (fuel : nat) (alpha beta : score) (isMax : bool) (game : Game) :
  quiescence (S fuel) alpha beta isMax game =
  if isMax then
    if (evaluateBoard game >=? beta)%S then Some (beta, game)
    else quiescence_loop (quiescence fuel) true (captureMoves game)
           (if (evaluateBoard game >? alpha)%S then evaluateBoard game else alpha) beta game
  else
    if (evaluateBoard game <=? alpha)%S then Some (alpha, game)
    else quiescence_loop (quiescence fuel) false (captureMoves game)
           alpha (if (evaluateBoard game <? beta)%S then evaluateBoard game else beta) game.
Proof.
  simpl. unfold bind, ask, ret.
  destruct isMax.
  - destruct (score_leb beta (evaluateBoard game)); reflexivity.
  - destruct (score_leb (evaluateBoard game) alpha); reflexivity.
Qed.

Lemma quiescence_loop_cons (rec : score -> score -> bool -> Search Game score)
    (isMax : bool) (m : Move) (rest : list Move) (alpha beta : score) (game : Game) :
  quiescence_loop rec isMax (m :: rest) alpha beta game =
  match rec alpha beta (negb isMax) (move game m) with
  | None => None
  | Some (sc, game1) =>
      if isMax then
        if (sc >=? beta)%S then Some (beta, undo game1)
        else quiescence_loop rec isMax rest (if (sc >? alpha)%S then sc else alpha) beta
               (undo game1)
      else
        if (sc <=? alpha)%S then Some (alpha, undo game1)
        else quiescence_loop rec isMax rest alpha (if (sc <? beta)%S then sc else beta)
               (undo game1)
  end.
Proof.
  simpl. unfold bind, update, ret.
  destruct (rec alpha beta (negb isMax) (move game m)) as [[sc game1]|]; [|reflexivity].
  destruct isMax.
  - destruct (score_leb beta sc); reflexivity.
  - destruct (score_leb sc alpha); reflexivity.
Qed.

Lemma max_loop_cons (rec : score -> score -> bool -> Search Game score)
    (m : Move) (rest : list Move) (maxEval alpha beta : score) (game : Game) :
  max_loop rec (m :: rest) maxEval alpha beta game =
  match rec alpha beta false (move game m) with
  | None => None
  | Some (currentEval, game1) =>
      if (beta <=? Math_max alpha currentEval)%S
      then Some (Math_max maxEval currentEval, undo game1)
      else max_loop rec rest (Math_max maxEval currentEval) (Math_max alpha currentEval) beta
             (undo game1)
  end.
Proof.
  simpl. unfold bind, update, ret.
  destruct (rec alpha beta false (move game m)) as [[sc game1]|]; [|reflexivity].
  destruct (score_leb beta (Math_max alpha sc)); reflexivity.
Qed.

Lemma min_loop_cons (rec : score -> score -> bool -> Search Game score)
    (m : Move) (rest : list Move) (minEval alpha beta : score) (game : Game) :
  min_loop rec (m :: rest) minEval alpha beta game =
  match rec alpha beta true (move game m) with
  | None => None
  | Some (currentEval, game1) =>
      if (Math_min beta currentEval <=? alpha)%S
      then Some (Math_min minEval currentEval, undo game1)
      else min_loop rec rest (Math_min minEval currentEval) alpha (Math_min beta currentEval)
             (undo game1)
  end.
Proof.
  simpl. unfold bind, update, ret.
  destruct (rec alpha beta true (move game m)) as [[sc game1]|]; [|reflexivity].
  destruct (score_leb (Math_min beta sc) alpha); reflexivity.
Qed.

Lemma minimax_S (fuel : nat) (depth : Z) (alpha beta : score) (isMax : bool) (game : Game) :
  minimax (S fuel) depth alpha beta isMax game =
  if (depth =? 0) || isGameOver game then quiescence fuel alpha beta isMax game
  else if isMax then
    max_loop (minimax fuel (depth - 1)) (sort compareMoves (moves game))
      NegInfinity alpha beta game
  else
    min_loop (minimax fuel (depth - 1)) (sort compareMoves (moves game))
      Infinity alpha beta game.
Proof.
  simpl. unfold bind, ask.
  destruct ((depth =? 0) || isGameOver game); [reflexivity|].
  destruct isMax; reflexivity.
Qed.

End Unfolding.

(** ** Which moves quiescence looks at *)

Section CaptureFacts.
Context {Game : Type} (E : ChessEngine Game).

Lemma captureMoves_In (game : Game) (m : Move) :
  In m (captureMoves game) <-> In m (moves game) /\ includes (flags m) "c" = true.
Proof.
  unfold captureMoves. rewrite sort_In, filter_In. tauto.
Qed.

Lemma captureMoves_withoutEnPassant (game : Game) :
  @captureMoves Game (withoutEnPassant E) game = @captureMoves Game E game.
Proof.
  unfold captureMoves. f_equal. simpl.
  induction (@moves Game E game) as [|m rest IH]; simpl; [reflexivity|].
  destruct (String.eqb (flags m) "e") eqn:He; simpl.
  - apply String.eqb_eq in He. rewrite He. simpl. exact IH.
  - destruct (includes (flags m) "c"); [f_equal|]; exact IH.
Qed.

Lemma quiescence_loop_ext (rec1 rec2 : score -> score -> bool -> Search Game score)
    (isMax : bool) (ms : list Move) :
  (forall alpha beta mx game, rec1 alpha beta mx game = rec2 alpha beta mx game) ->
  forall alpha beta game,
    @quiescence_loop Game (withoutEnPassant E) rec1 isMax ms alpha beta game
    = @quiescence_loop Game E rec2 isMax ms alpha beta game.
Proof.
  intros Hrec. induction ms as [|m rest IH]; intros alpha beta game.
  - reflexivity.
  - rewrite !quiescence_loop_cons.
    change (@move Game (withoutEnPassant E)) with (@move Game E).
    change (@undo Game (withoutEnPassant E)) with (@undo Game E).
    rewrite Hrec.
    destruct (rec2 alpha beta (negb isMax) (move game m)) as [[sc game1]|]; [|reflexivity].
    destruct isMax.
    + destruct (score_leb beta sc); [reflexivity|]. apply IH.
    + destruct (score_leb sc alpha); [reflexivity|]. apply IH.
Qed.

Lemma quiescence_withoutEnPassant (fuel : nat) :
  forall alpha beta isMax game,
    @quiescence Game (withoutEnPassant E) fuel alpha beta isMax game
    = @quiescence Game E fuel alpha beta isMax game.
Proof.
  induction fuel as [|fuel IH]; intros alpha beta isMax game; [reflexivity|].
  rewrite !quiescence_S.
  change (@evaluateBoard Game (withoutEnPassant E) game) with (@evaluateBoard Game E game).
  rewrite captureMoves_withoutEnPassant.
  destruct isMax.
  - destruct (score_leb beta (evaluateBoard game)); [reflexivity|].
    apply quiescence_loop_ext, IH.
  - destruct (score_leb (evaluateBoard game) alpha); [reflexivity|].
    apply quiescence_loop_ext, IH.
Qed.

(** C10: quiescence looks only at the moves whose flags contain ['c'].  An
    en-passant capture carries the flags ["e"]: it is never in the list
    quiescence iterates over, and the value quiescence returns is the one
    it returns when the en-passant captures are taken out of the engine's
    move lists.  The move ordering of [minimax] gives such a move the
    score 0, not the capture score. *)
Theorem en_passant_not_a_capture :
  (forall game m, In m (captureMoves game) -> includes (flags m) "c" = true) /\
  (forall game m, flags m = "e"%string -> ~ In m (captureMoves game)) /\
  (forall fuel alpha beta isMax game,
      @quiescence Game (withoutEnPassant E) fuel alpha beta isMax game
      = @quiescence Game E fuel alpha beta isMax game) /\
  (forall m, flags m = "e"%string -> promotion m = None -> orderScore m = 0).
Proof.
  split; [|split; [|split]].
  - intros game m Hin. apply captureMoves_In in Hin. tauto.
  - intros game m He Hin. apply captureMoves_In in Hin.
    destruct Hin as [_ Hc]. rewrite He in Hc. discriminate.
  - intros. apply quiescence_withoutEnPassant.
  - intros m He Hp. unfold orderScore. rewrite He, Hp. reflexivity.
Qed.

End CaptureFacts.

Lemma en_passant_not_a_capture_witness :
  In Examples.exd6 (moves Examples.middleGame) /\
  ~ In Examples.exd6 (captureMoves Examples.middleGame) /\
  orderScore Examples.exd6 = 0 /\
  orderScore (Toy.capture "exd5" Pawn Pawn) = 900.
Proof.
  split; [simpl; tauto|]. split; [|split].
  - exact (proj1 (proj2 (en_passant_not_a_capture Toy.engine))
             Examples.middleGame Examples.exd6 eq_refl).
  - exact (proj2 (proj2 (proj2 (en_passant_not_a_capture Toy.engine)))
             Examples.exd6 eq_refl eq_refl).
  - reflexivity.
Defined.

(** ** The window of quiescence *)

Section Window.
Context {Game : Type} `{ChessEngine Game}.

Lemma quiescence_loop_window (rec : score -> score -> bool -> Search Game score)
    (isMax : bool) (ms : list Move) :
  forall alpha beta game v game',
    score_le alpha beta ->
    quiescence_loop rec isMax ms alpha beta game = Some (v, game') ->
    in_window alpha beta v.
Proof.
  induction ms as [|m rest IH]; intros alpha beta game v game' Hab Hrun.
  - simpl in Hrun. unfold ret in Hrun. inversion Hrun; subst.
    unfold in_window. destruct isMax; split; trivial; apply score_leb_refl.
  - rewrite quiescence_loop_cons in Hrun.
    destruct (rec alpha beta (negb isMax) (move game m)) as [[sc game1]|]; [|discriminate].
    destruct isMax.
    + destruct (score_leb beta sc) eqn:Hcut.
      * inversion Hrun; subst. split; [exact Hab | apply score_leb_refl].
      * apply IH in Hrun.
        -- destruct Hrun as [Hlo Hhi]. split; [|exact Hhi].
           clear - Hlo. destruct (score_ltb alpha sc) eqn:Hlt; [|exact Hlo].
           revert Hlo Hlt. score_solve.
        -- destruct (score_ltb alpha sc) eqn:Hlt; [|exact Hab].
           clear - Hcut. revert Hcut. score_solve.
    + destruct (score_leb sc alpha) eqn:Hcut.
      * inversion Hrun; subst. split; [apply score_leb_refl | exact Hab].
      * apply IH in Hrun.
        -- destruct Hrun as [Hlo Hhi]. split; [exact Hlo|].
           clear - Hhi. destruct (score_ltb sc beta) eqn:Hlt; [|exact Hhi].
           revert Hhi Hlt. score_solve.
        -- destruct (score_ltb sc beta) eqn:Hlt; [|exact Hab].
           clear - Hcut. revert Hcut. score_solve.
Qed.

(** The value of a returning call lies in the window, and the stand-pat
    cutoffs return the bound itself. *)
Lemma quiescence_window (fuel : nat) (alpha beta : score) (isMax : bool)
    (game game' : Game) (v : score) :
  score_le alpha beta ->
  quiescence fuel alpha beta isMax game = Some (v, game') ->
  in_window alpha beta v /\
  (isMax = true -> score_le beta (evaluateBoard game) -> v = beta) /\
  (isMax = false -> score_le (evaluateBoard game) alpha -> v = alpha).
Proof.
  intros Hab Hrun. destruct fuel as [|fuel]; [discriminate|].
  rewrite quiescence_S in Hrun.
  destruct isMax.
  - destruct (score_leb beta (evaluateBoard game)) eqn:Hcut.
    + inversion Hrun; subst. repeat split; trivial; try discriminate.
      apply score_leb_refl.
    + split; [|split; [intros _ Hge; unfold score_le in Hge; congruence | discriminate]].
      apply quiescence_loop_window in Hrun.
      * destruct Hrun as [Hlo Hhi]. split; [|exact Hhi].
        clear - Hlo. destruct (score_ltb alpha (evaluateBoard game)) eqn:Hlt; [|exact Hlo].
        revert Hlo Hlt. generalize (evaluateBoard game). intros s. score_solve.
      * destruct (score_ltb alpha (evaluateBoard game)) eqn:Hlt; [|exact Hab].
        clear - Hcut. revert Hcut. generalize (evaluateBoard game). intros s. score_solve.
  - destruct (score_leb (evaluateBoard game) alpha) eqn:Hcut.
    + inversion Hrun; subst. repeat split; trivial; try discriminate.
      apply score_leb_refl.
    + split; [|split; [discriminate | intros _ Hge; unfold score_le in Hge; congruence]].
      apply quiescence_loop_window in Hrun.
      * destruct Hrun as [Hlo Hhi]. split; [exact Hlo|].
        clear - Hhi. destruct (score_ltb (evaluateBoard game) beta) eqn:Hlt; [|exact Hhi].
        revert Hhi Hlt. generalize (evaluateBoard game). intros s. score_solve.
      * destruct (score_ltb (evaluateBoard game) beta) eqn:Hlt; [|exact Hab].
        clear - Hcut. revert Hcut. generalize (evaluateBoard game). intros s. score_solve.
Qed.

End Window.

(** ** Make and undo *)

Section Restore.
Context {Game : Type} `{ChessEngine Game}.
Hypothesis Hundo : undo_restores.

Lemma quiescence_loop_restores (rec : score -> score -> bool -> Search Game score)
    (isMax : bool) (game : Game) (ms : list Move) :
  restoring rec ->
  (forall m, In m ms -> In m (moves game)) ->
  forall alpha beta v game',
    quiescence_loop rec isMax ms alpha beta game = Some (v, game') -> game' = game.
Proof.
  intros Hrec. induction ms as [|m rest IH]; intros Hlegal alpha beta v game' Hrun.
  - simpl in Hrun. unfold ret in Hrun. congruence.
  - rewrite quiescence_loop_cons in Hrun.
    destruct (rec alpha beta (negb isMax) (move game m)) as [[sc game1]|] eqn:Hcall;
      [|discriminate].
    apply Hrec in Hcall. subst game1.
    assert (Hback : undo (move game m) = game)
      by (apply Hundo, Hlegal; left; reflexivity).
    rewrite !Hback in Hrun.
    assert (Hrest : forall m', In m' rest -> In m' (moves game))
      by (intros m' Hin; apply Hlegal; right; exact Hin).
    destruct isMax.
    + destruct (score_leb beta sc); [congruence | exact (IH Hrest _ _ _ _ Hrun)].
    + destruct (score_leb sc alpha); [congruence | exact (IH Hrest _ _ _ _ Hrun)].
Qed.

Lemma quiescence_restores (fuel : nat) : restoring (quiescence fuel).
Proof.
  induction fuel as [|fuel IH]; intros alpha beta mx game v game' Hrun; [discriminate|].
  rewrite quiescence_S in Hrun.
  assert (Hlegal : forall m, In m (captureMoves game) -> In m (moves game))
    by (intros m Hin; apply captureMoves_In in Hin; tauto).
  destruct mx.
  - destruct (score_leb beta (evaluateBoard game)); [congruence|].
    eapply quiescence_loop_restores; [exact IH | exact Hlegal | exact Hrun].
  - destruct (score_leb (evaluateBoard game) alpha); [congruence|].
    eapply quiescence_loop_restores; [exact IH | exact Hlegal | exact Hrun].
Qed.

Lemma max_loop_restores (rec : score -> score -> bool -> Search Game score)
    (game : Game) (ms : list Move) :
  restoring rec ->
  (forall m, In m ms -> In m (moves game)) ->
  forall maxEval alpha beta v game',
    max_loop rec ms maxEval alpha beta game = Some (v, game') -> game' = game.
Proof.
  intros Hrec. induction ms as [|m rest IH]; intros Hlegal maxEval alpha beta v game' Hrun.
  - simpl in Hrun. unfold ret in Hrun. congruence.
  - rewrite max_loop_cons in Hrun.
    destruct (rec alpha beta false (move game m)) as [[sc game1]|] eqn:Hcall; [|discriminate].
    apply Hrec in Hcall. subst game1.
    assert (Hback : undo (move game m) = game)
      by (apply Hundo, Hlegal; left; reflexivity).
    rewrite !Hback in Hrun.
    destruct (score_leb beta (Math_max alpha sc)); [congruence|].
    eapply IH; [|exact Hrun]. intros m' Hin. apply Hlegal. right. exact Hin.
Qed.

Lemma min_loop_restores (rec : score -> score -> bool -> Search Game score)
    (game : Game) (ms : list Move) :
  restoring rec ->
  (forall m, In m ms -> In m (moves game)) ->
  forall minEval alpha beta v game',
    min_loop rec ms minEval alpha beta game = Some (v, game') -> game' = game.
Proof.
  intros Hrec. induction ms as [|m rest IH]; intros Hlegal minEval alpha beta v game' Hrun.
  - simpl in Hrun. unfold ret in Hrun. congruence.
  - rewrite min_loop_cons in Hrun.
    destruct (rec alpha beta true (move game m)) as [[sc game1]|] eqn:Hcall; [|discriminate].
    apply Hrec in Hcall. subst game1.
    assert (Hback : undo (move game m) = game)
      by (apply Hundo, Hlegal; left; reflexivity).
    rewrite !Hback in Hrun.
    destruct (score_leb (Math_min beta sc) alpha); [congruence|].
    eapply IH; [|exact Hrun]. intros m' Hin. apply Hlegal. right. exact Hin.
Qed.

Lemma minimax_restores (fuel : nat) : forall depth, restoring (minimax fuel depth).
Proof.
  induction fuel as [|fuel IH]; intros depth alpha beta mx game v game' Hrun; [discriminate|].
  rewrite minimax_S in Hrun.
  assert (Hlegal : forall m, In m (sort compareMoves (moves game)) -> In m (moves game))
    by (intros m Hin; apply sort_In in Hin; exact Hin).
  destruct ((depth =? 0) || isGameOver game).
  - eapply quiescence_restores; exact Hrun.
  - destruct mx.
    + eapply max_loop_restores; [apply IH | exact Hlegal | exact Hrun].
    + eapply min_loop_restores; [apply IH | exact Hlegal | exact Hrun].
Qed.

End Restore.

(** C3: given that the rules engine's [undo] takes back a legal [move]
    exactly, every call of [quiescence] and of [minimax] that returns leaves
    the shared position as it found it: the same state, hence the same legal
    moves, the same side to move and the same evaluation.  (That the calls
    do return is [quiescence_terminates] and [minimax_terminates] below.) *)
Theorem search_restores_position {Game : Type} `{ChessEngine Game} :
  undo_restores ->
  (forall fuel alpha beta isMax game v game',
      quiescence fuel alpha beta isMax game = Some (v, game') ->
      game' = game /\ moves game' = moves game /\ turn game' = turn game /\
      evaluateBoard game' = evaluateBoard game) /\
  (forall fuel depth alpha beta isMax game v game',
      minimax fuel depth alpha beta isMax game = Some (v, game') ->
      game' = game /\ moves game' = moves game /\ turn game' = turn game /\
      evaluateBoard game' = evaluateBoard game).
Proof.
  intros Hundo. split.
  - intros fuel alpha beta isMax game v game' Hrun.
    apply (quiescence_restores Hundo) in Hrun. subst. repeat split.
  - intros fuel depth alpha beta isMax game v game' Hrun.
    apply (minimax_restores Hundo) in Hrun. subst. repeat split.
Qed.

(** ** The concrete engines keep the contracts *)

Lemma Toy_find_child_In (m : Move) (cs : list (Move * Toy.Tree)) :
  In m (map fst cs) -> exists t, Toy.find_child (san m) cs = Some t /\ In t (map snd cs).
Proof.
  induction cs as [|[m' t'] rest IH]; simpl; [tauto|].
  intros [Heq | Hin].
  - subst m'. rewrite String.eqb_refl. eauto.
  - destruct (String.eqb (san m') (san m)); [eauto|].
    destruct (IH Hin) as [t [Hfind Ht]]. eauto.
Qed.

Lemma Toy_undo_restores : @undo_restores Toy.Game Toy.engine.
Proof.
  intros [cur hist] m Hin. simpl in *.
  destruct (Toy_find_child_In m (Toy.children cur) Hin) as [t [Hfind _]].
  unfold Toy.play. simpl. rewrite Hfind. reflexivity.
Qed.

Lemma Toy_height_child (t : Toy.Tree) (cs : list (Move * Toy.Tree)) (i : Toy.Info) :
  In t (map snd cs) -> (Toy.height t < Toy.height (Toy.Node i cs))%nat.
Proof.
  cbn [Toy.height]. induction cs as [|[m' t'] rest IH]; cbn [map fold_right snd In]; [tauto|].
  intros [Heq | Hin].
  - subst t'. lia.
  - specialize (IH Hin). lia.
Qed.

Lemma Toy_captures_shrink :
  @captures_shrink Toy.Game Toy.engine (fun game => Toy.height (fst game)).
Proof.
  intros [cur hist] m Hin. simpl in *.
  destruct (Toy_find_child_In m (Toy.children cur) Hin) as [t [Hfind Ht]].
  unfold Toy.play. simpl. rewrite Hfind. simpl.
  destruct cur as [i cs]. simpl in Ht.
  pose proof (Toy_height_child t cs i Ht). split; [lia|intros _; lia].
Qed.

Lemma Loop_undo_restores : @undo_restores unit Loop.engine.
Proof. intros game m _. reflexivity. Qed.

Lemma Loop_captures_shrink : @captures_shrink unit Loop.engine (fun _ => O).
Proof.
  intros game m Hin. split; [apply le_n|].
  simpl in Hin. destruct Hin as [<-|[]]. discriminate.
Qed.

Lemma search_restores_position_witness :
  (Examples.middleGame = Examples.middleGame /\
   moves Examples.middleGame = moves Examples.middleGame /\
   turn Examples.middleGame = turn Examples.middleGame /\
   evaluateBoard Examples.middleGame = evaluateBoard Examples.middleGame) /\
  minimax 5 2 NegInfinity Infinity true Examples.middleGame
    = Some (Finite 640, Examples.middleGame).
Proof.
  split; [|reflexivity].
  exact (proj2 (search_restores_position Toy_undo_restores)
           5%nat 2 NegInfinity Infinity true Examples.middleGame (Finite 640)
           Examples.middleGame eq_refl).
Defined.

(** ** Termination *)

Section Termination.
Context {Game : Type} `{ChessEngine Game}.
Variable mu : Game -> nat.
Hypothesis Hundo : undo_restores.
Hypothesis Hshrink : captures_shrink mu.

Lemma returns_on_tail rec game m rest :
  returns_on rec game (m :: rest) -> returns_on rec game rest.
Proof. intros Hall m' Hin. apply Hall. right. exact Hin. Qed.

Lemma quiescence_loop_returns (rec : score -> score -> bool -> Search Game score)
    (isMax : bool) (game : Game) (ms : list Move) :
  returns_on rec game ms ->
  forall alpha beta, exists v, quiescence_loop rec isMax ms alpha beta game = Some (v, game).
Proof.
  induction ms as [|m rest IH]; intros Hall alpha beta.
  - simpl. unfold ret. eauto.
  - rewrite quiescence_loop_cons.
    destruct (Hall m (or_introl eq_refl)) as [Hlegal Hcall].
    destruct (Hcall alpha beta (negb isMax)) as [sc Hsc]. rewrite Hsc.
    rewrite !(Hundo _ _ Hlegal).
    specialize (IH (returns_on_tail Hall)).
    destruct isMax.
    + destruct (score_leb beta sc); [eauto | apply IH].
    + destruct (score_leb sc alpha); [eauto | apply IH].
Qed.

Lemma max_loop_returns (rec : score -> score -> bool -> Search Game score)
    (game : Game) (ms : list Move) :
  returns_on rec game ms ->
  forall maxEval alpha beta, exists v, max_loop rec ms maxEval alpha beta game = Some (v, game).
Proof.
  induction ms as [|m rest IH]; intros Hall maxEval alpha beta.
  - simpl. unfold ret. eauto.
  - rewrite max_loop_cons.
    destruct (Hall m (or_introl eq_refl)) as [Hlegal Hcall].
    destruct (Hcall alpha beta false) as [sc Hsc]. rewrite Hsc.
    rewrite !(Hundo _ _ Hlegal).
    destruct (score_leb beta (Math_max alpha sc)); [eauto|].
    apply IH, (returns_on_tail Hall).
Qed.

Lemma min_loop_returns (rec : score -> score -> bool -> Search Game score)
    (game : Game) (ms : list Move) :
  returns_on rec game ms ->
  forall minEval alpha beta, exists v, min_loop rec ms minEval alpha beta game = Some (v, game).
Proof.
  induction ms as [|m rest IH]; intros Hall minEval alpha beta.
  - simpl. unfold ret. eauto.
  - rewrite min_loop_cons.
    destruct (Hall m (or_introl eq_refl)) as [Hlegal Hcall].
    destruct (Hcall alpha beta true) as [sc Hsc]. rewrite Hsc.
    rewrite !(Hundo _ _ Hlegal).
    destruct (score_leb (Math_min beta sc) alpha); [eauto|].
    apply IH, (returns_on_tail Hall).
Qed.

(** Quiescence returns once the fuel exceeds the measure of the position:
    every capture decreases the measure. *)
Lemma quiescence_terminates (fuel : nat) :
  forall alpha beta mx game,
    (mu game < fuel)%nat ->
    exists v, quiescence fuel alpha beta mx game = Some (v, game).
Proof.
  induction fuel as [|fuel IH]; intros alpha beta mx game Hfuel; [lia|].
  rewrite quiescence_S.
  assert (Hall : returns_on (quiescence fuel) game (captureMoves game)).
  { intros m Hin. apply captureMoves_In in Hin. destruct Hin as [Hlegal Hc].
    split; [exact Hlegal|]. intros a c mx'. apply IH.
    destruct (Hshrink game m Hlegal) as [_ Hlt]. specialize (Hlt Hc). lia. }
  destruct mx.
  - destruct (score_leb beta (evaluateBoard game)); [eauto|].
    apply quiescence_loop_returns, Hall.
  - destruct (score_leb (evaluateBoard game) alpha); [eauto|].
    apply quiescence_loop_returns, Hall.
Qed.

(** With a depth that is not negative, [minimax] counts the depth down to
    0 and hands over to quiescence. *)
Lemma minimax_terminates (fuel : nat) :
  forall depth alpha beta mx game,
    0 <= depth ->
    (Z.to_nat depth + mu game + 1 < fuel)%nat ->
    exists v, minimax fuel depth alpha beta mx game = Some (v, game).
Proof.
  induction fuel as [|fuel IH]; intros depth alpha beta mx game Hdepth Hfuel; [lia|].
  rewrite minimax_S.
  destruct (depth =? 0) eqn:Hzero; simpl.
  - apply quiescence_terminates. lia.
  - destruct (isGameOver game); [apply quiescence_terminates; lia|].
    apply Z.eqb_neq in Hzero.
    assert (Hall : returns_on (minimax fuel (depth - 1)) game (sort compareMoves (moves game))).
    { intros m Hin. apply sort_In in Hin. split; [exact Hin|].
      intros a c mx'. apply IH; [lia|].
      destruct (Hshrink game m Hin) as [Hle _]. lia. }
    destruct mx.
    + apply max_loop_returns, Hall.
    + apply min_loop_returns, Hall.
Qed.

Lemma root_loop_returns (fuel : nat) (game : Game) (depth : Z) (isMax : bool)
    (ms : list Move) :
  (forall m, In m ms -> exists v, rootValue fuel game depth isMax m = Some v) ->
  forall best bestValue, exists r,
    root_loop fuel game depth isMax ms best bestValue = Some r.
Proof.
  induction ms as [|m rest IH]; intros Hall best bestValue; simpl.
  - eauto.
  - destruct (Hall m (or_introl eq_refl)) as [v Hv]. rewrite Hv.
    assert (Hrest : forall m', In m' rest ->
              exists v', rootValue fuel game depth isMax m' = Some v')
      by (intros m' Hin; apply Hall; right; exact Hin).
    destruct isMax.
    + destruct (score_ltb bestValue v); apply IH, Hrest.
    + destruct (score_ltb v bestValue); apply IH, Hrest.
Qed.

Lemma rootFuel_enough (game : Game) (depth : Z) (m : Move) :
  In m (moves game) ->
  (Z.to_nat (depth - 1) + mu (move (newChess (fen game)) m) + 1 < rootFuel mu game depth)%nat.
Proof.
  unfold rootFuel. induction (moves game) as [|m' rest IH]; simpl; [tauto|].
  intros [Heq | Hin].
  - subst m'. lia.
  - specialize (IH Hin). lia.
Qed.

Lemma findBestMoveForAnalysis_terminates (game : Game) (depth : Z) :
  1 <= depth ->
  exists r, findBestMoveForAnalysis (rootFuel mu game depth) game depth = Some r.
Proof.
  intros Hdepth. unfold findBestMoveForAnalysis.
  destruct (moves game) as [|first rest] eqn:Hmoves; [eauto|].
  destruct (@root_loop_returns (rootFuel mu game depth) game depth
              (Color_eqb (turn game) White) (first :: rest)) with
    (best := first)
    (bestValue := if Color_eqb (turn game) White then NegInfinity else Infinity)
    as [[best v] Hr].
  - intros m Hin. rewrite <- Hmoves in Hin. unfold rootValue.
    destruct (@minimax_terminates (rootFuel mu game depth) (depth - 1) NegInfinity Infinity
                (negb (Color_eqb (turn game) White)) (move (newChess (fen game)) m))
      as [v Hv]; [lia | apply rootFuel_enough, Hin |].
    rewrite Hv. eauto.
  - rewrite Hr. eauto.
Qed.

End Termination.

(** On the engine whose game never ends, a negative depth never reaches a
    base case. *)
Lemma Loop_minimax_negative_depth (fuel : nat) :
  forall depth alpha beta mx,
    depth < 0 -> @minimax unit Loop.engine fuel depth alpha beta mx tt = None.
Proof.
  induction fuel as [|fuel IH]; intros depth alpha beta mx Hneg; [reflexivity|].
  rewrite minimax_S.
  replace (depth =? 0) with false by (symmetry; apply Z.eqb_neq; lia).
  cbn [isGameOver Loop.engine orb moves sort sort_insert].
  destruct mx.
  - rewrite max_loop_cons. cbn [move Loop.engine]. rewrite IH by lia. reflexivity.
  - rewrite min_loop_cons. cbn [move Loop.engine]. rewrite IH by lia. reflexivity.
Qed.

(** C8 (what the claim says fails): no depth is rejected.  Depth 0 given to
    [findBestMoveForAnalysis] reaches [minimax] as -1; a negative depth never
    equals 0, so only a finished game stops the recursion.  On the engine
    whose game never ends the search does not return, whatever the fuel; on
    the trap position depth 0 searches every line to the end of the game
    (finding the mate four plies down) instead of evaluating the leaves. *)
Lemma depth_not_validated :
  (forall fuel, @findBestMoveForAnalysis unit Loop.engine fuel tt 0 = None) /\
  (forall fuel, @minimax unit Loop.engine fuel (-1) NegInfinity Infinity false tt = None) /\
  rootValue 9 Examples.trap 0 true (Toy.quiet "Qd7" Queen) = Some NegInfinity /\
  rootValue 9 Examples.trap 1 true (Toy.quiet "Qd7" Queen) = Some (Finite 605) /\
  option_map (option_map san) (findBestMoveForAnalysis 9 Examples.trap 0)
    = Some (Some "h3"%string) /\
  option_map (option_map san) (findBestMoveForAnalysis 9 Examples.trap 1)
    = Some (Some "Qd7"%string).
Proof.
  split; [|split; [|repeat split]].
  - intros fuel. unfold findBestMoveForAnalysis. cbn [moves Loop.engine root_loop].
    unfold rootValue. cbn [move newChess fen turn Loop.engine Color_eqb negb].
    rewrite Loop_minimax_negative_depth by lia. reflexivity.
  - intros fuel. apply Loop_minimax_negative_depth. lia.
Qed.

(** C8 (amended): the search validates nothing, and the depth recursion
    reaches its base case whenever it is started with a depth that is not
    negative.  In [minimax], depth 0 goes straight to quiescence, and every
    depth [>= 0] returns (captures being finite: some measure shrinks with
    every capture); [findBestMoveForAnalysis] passes [depth - 1] on and
    returns for every depth [>= 1]. *)
Theorem depth_recursion_terminates {Game : Type} `{ChessEngine Game} (mu : Game -> nat) :
  undo_restores ->
  captures_shrink mu ->
  (forall fuel alpha beta isMax game,
      minimax (S fuel) 0 alpha beta isMax game = quiescence fuel alpha beta isMax game) /\
  (forall depth alpha beta isMax game,
      0 <= depth ->
      exists v, minimax (Z.to_nat depth + mu game + 2) depth alpha beta isMax game
                = Some (v, game)) /\
  (forall depth game,
      1 <= depth ->
      exists fuel r, findBestMoveForAnalysis fuel game depth = Some r).
Proof.
  intros Hundo Hshrink. split; [|split].
  - intros. rewrite minimax_S. reflexivity.
  - intros depth alpha beta isMax game Hdepth.
    apply (minimax_terminates Hundo Hshrink); [exact Hdepth | lia].
  - intros depth game Hdepth. exists (rootFuel mu game depth).
    apply (findBestMoveForAnalysis_terminates Hundo Hshrink). exact Hdepth.
Qed.

Lemma depth_recursion_terminates_witness :
  (exists v, minimax (Z.to_nat 2 + Toy.height (fst Examples.middleGame) + 2) 2
               NegInfinity Infinity true Examples.middleGame
             = Some (v, Examples.middleGame)) /\
  (exists fuel r, findBestMoveForAnalysis fuel Examples.middleGame 2 = Some r).
Proof.
  pose proof (depth_recursion_terminates Toy_undo_restores Toy_captures_shrink)
    as [_ [Hmm Hroot]].
  split.
  - apply (Hmm 2 NegInfinity Infinity true Examples.middleGame). lia.
  - apply (Hroot 2 Examples.middleGame). lia.
Defined.

(** ** Pruning against the exhaustive search *)

Lemma best_of_perm (isMax : bool) (l l' : list (option score)) :
  Permutation l l' -> forall best, best_of isMax best l = best_of isMax best l'.
Proof.
  induction 1 as [|x l l' _ IH|x y l|l l' l'' _ IH1 _ IH2]; intros best.
  - reflexivity.
  - destruct x as [v|]; simpl; [apply IH | reflexivity].
  - destruct x as [v|], y as [w|]; simpl; try reflexivity.
    f_equal. destruct isMax; clear; score_solve.
  - rewrite IH1. apply IH2.
Qed.

Lemma best_of_max_init (a : score) (l : list (option score)) :
  forall best T,
    best_of true best l = Some T ->
    best_of true (Math_max a best) l = Some (Math_max a T).
Proof.
  induction l as [|[v|] rest IH]; intros best T Hbest; simpl in *.
  - inversion Hbest. reflexivity.
  - apply IH in Hbest. rewrite <- Hbest. f_equal. clear. score_solve.
  - discriminate.
Qed.

Lemma best_of_min_init (a : score) (l : list (option score)) :
  forall best T,
    best_of false best l = Some T ->
    best_of false (Math_min a best) l = Some (Math_min a T).
Proof.
  induction l as [|[v|] rest IH]; intros best T Hbest; simpl in *.
  - inversion Hbest. reflexivity.
  - apply IH in Hbest. rewrite <- Hbest. f_equal. clear. score_solve.
  - discriminate.
Qed.

Lemma best_of_max_ge (l : list (option score)) :
  forall best T, best_of true best l = Some T -> score_le best T.
Proof.
  induction l as [|[v|] rest IH]; intros best T Hbest; simpl in *.
  - inversion Hbest. apply score_leb_refl.
  - apply IH in Hbest. revert Hbest. clear. score_solve.
  - discriminate.
Qed.

Lemma best_of_min_le (l : list (option score)) :
  forall best T, best_of false best l = Some T -> score_le T best.
Proof.
  induction l as [|[v|] rest IH]; intros best T Hbest; simpl in *.
  - inversion Hbest. apply score_leb_refl.
  - apply IH in Hbest. revert Hbest. clear. score_solve.
  - discriminate.
Qed.

Lemma bounds_clamp (alpha beta T : score) :
  score_lt alpha beta -> bounds alpha beta (clamp alpha beta T) T.
Proof. unfold bounds, clamp. intros Hab. revert Hab. score_solve. Qed.

Lemma bounds_full_window (v T : score) : bounds NegInfinity Infinity v T -> v = T.
Proof.
  unfold bounds, score_le, score_lt, score_ltb. intros [Hlo [Hhi Hmid]].
  destruct v as [|x|]; simpl in *.
  - specialize (Hlo eq_refl). destruct T; [reflexivity | discriminate | discriminate].
  - apply Hmid; reflexivity.
  - specialize (Hhi eq_refl). destruct T; [discriminate | discriminate | reflexivity].
Qed.

Lemma bounds_max (alpha beta v T : score) :
  bounds alpha beta v T -> score_lt v beta -> Math_max alpha v = Math_max alpha T.
Proof.
  unfold bounds. intros [Hlo [_ Hmid]] Hlt.
  destruct (score_leb v alpha) eqn:Hle.
  - specialize (Hlo Hle). revert Hle Hlo. clear. score_solve.
  - assert (Hgt : score_lt alpha v) by (unfold score_lt, score_ltb; rewrite Hle; reflexivity).
    rewrite <- (Hmid Hgt Hlt). reflexivity.
Qed.

Lemma bounds_min (alpha beta v T : score) :
  bounds alpha beta v T -> score_lt alpha v -> Math_min beta v = Math_min beta T.
Proof.
  unfold bounds. intros [_ [Hhi Hmid]] Hgt.
  destruct (score_leb beta v) eqn:Hle.
  - specialize (Hhi Hle). revert Hle Hhi. clear. score_solve.
  - assert (Hlt : score_lt v beta) by (unfold score_lt, score_ltb; rewrite Hle; reflexivity).
    rewrite <- (Hmid Hgt Hlt). reflexivity.
Qed.

Lemma Math_min_Infinity (a : score) : Math_min a Infinity = a.
Proof. score_solve. Qed.

Section Pruning.
Context {Game : Type} `{ChessEngine Game}.
Hypothesis Hundo : undo_restores.

Lemma clamps_tail rec full game m rest :
  clamps rec full game (m :: rest) -> clamps rec full game rest.
Proof. intros Hall m' Hin. apply Hall. right. exact Hin. Qed.

Lemma quiescence_loop_max rec full game ms :
  clamps rec full game ms ->
  forall alpha beta T,
    score_le alpha beta ->
    best_of true alpha (map (fun m => full false (move game m)) ms) = Some T ->
    quiescence_loop rec true ms alpha beta game = Some (Math_min beta T, game).
Proof.
  induction ms as [|m rest IH]; intros Hall alpha beta T Hab Hbest.
  - simpl in *. unfold ret. inversion Hbest; subst. do 2 f_equal.
    revert Hab. clear. score_solve.
  - cbn [map best_of] in Hbest.
    destruct (full false (move game m)) as [T1|] eqn:Hfull; [|discriminate].
    destruct (Hall m (or_introl eq_refl)) as [Hlegal Hcall].
    rewrite quiescence_loop_cons. cbn [negb].
    rewrite (Hcall false T1 alpha beta Hfull Hab), !(Hundo _ _ Hlegal).
    pose proof (best_of_max_ge _ _ Hbest) as Hge.
    destruct (score_leb beta (clamp alpha beta T1)) eqn:Hcut.
    + do 2 f_equal. revert Hab Hge Hcut. clear. unfold clamp. score_solve.
    + replace (if score_ltb alpha (clamp alpha beta T1) then clamp alpha beta T1 else alpha)
        with (Math_max alpha T1)
        by (revert Hab Hcut; clear; unfold clamp; score_solve).
      apply IH; [exact (clamps_tail Hall) | | exact Hbest].
      revert Hab Hcut. clear. unfold clamp. score_solve.
Qed.

Lemma quiescence_loop_min rec full game ms :
  clamps rec full game ms ->
  forall alpha beta T,
    score_le alpha beta ->
    best_of false beta (map (fun m => full true (move game m)) ms) = Some T ->
    quiescence_loop rec false ms alpha beta game = Some (Math_max alpha T, game).
Proof.
  induction ms as [|m rest IH]; intros Hall alpha beta T Hab Hbest.
  - simpl in *. unfold ret. inversion Hbest; subst. do 2 f_equal.
    revert Hab. clear. score_solve.
  - cbn [map best_of] in Hbest.
    destruct (full true (move game m)) as [T1|] eqn:Hfull; [|discriminate].
    destruct (Hall m (or_introl eq_refl)) as [Hlegal Hcall].
    rewrite quiescence_loop_cons. cbn [negb].
    rewrite (Hcall true T1 alpha beta Hfull Hab), !(Hundo _ _ Hlegal).
    pose proof (best_of_min_le _ _ Hbest) as Hge.
    destruct (score_leb (clamp alpha beta T1) alpha) eqn:Hcut.
    + do 2 f_equal. revert Hab Hge Hcut. clear. unfold clamp. score_solve.
    + replace (if score_ltb (clamp alpha beta T1) beta then clamp alpha beta T1 else beta)
        with (Math_min beta T1)
        by (revert Hab Hcut; clear; unfold clamp; score_solve).
      apply IH; [exact (clamps_tail Hall) | | exact Hbest].
      revert Hab Hcut. clear. unfold clamp. score_solve.
Qed.

(** Quiescence is a fail-hard search: it returns the exhaustive capture
    value clamped to its window. *)
Lemma quiescence_clamp (fuel : nat) :
  forall mx game T alpha beta,
    quiescenceFull fuel mx game = Some T ->
    score_le alpha beta ->
    quiescence fuel alpha beta mx game = Some (clamp alpha beta T, game).
Proof.
  induction fuel as [|fuel IH]; intros mx game T alpha beta Hfull Hab; [discriminate|].
  cbn [quiescenceFull] in Hfull.
  rewrite <- (best_of_perm mx
                (Permutation_map (fun m => quiescenceFull fuel (negb mx) (move game m))
                   (sort_perm compareCaptures
                      (filter (fun m => includes (flags m) "c") (moves game))))) in Hfull.
  fold (captureMoves game) in Hfull.
  assert (Hall : clamps (quiescence fuel) (quiescenceFull fuel) game (captureMoves game)).
  { intros m Hin. apply captureMoves_In in Hin. split; [tauto|].
    intros mx' T' a c Hf Hac. apply IH; assumption. }
  rewrite quiescence_S. destruct mx; cbn [negb] in Hfull.
  - pose proof (best_of_max_ge _ _ Hfull) as Hge.
    destruct (score_leb beta (evaluateBoard game)) eqn:Hcut.
    + do 2 f_equal. revert Hab Hge Hcut. generalize (evaluateBoard game). clear.
      unfold clamp. score_solve.
    + fold (Math_max alpha (evaluateBoard game)).
      rewrite (quiescence_loop_max Hall (T := Math_max alpha T)).
      * do 2 f_equal. revert Hab. clear. unfold clamp. score_solve.
      * revert Hab Hcut. generalize (evaluateBoard game). clear. score_solve.
      * apply best_of_max_init, Hfull.
  - pose proof (best_of_min_le _ _ Hfull) as Hge.
    destruct (score_leb (evaluateBoard game) alpha) eqn:Hcut.
    + do 2 f_equal. revert Hab Hge Hcut. generalize (evaluateBoard game). clear.
      unfold clamp. score_solve.
    + fold (Math_min beta (evaluateBoard game)).
      rewrite (quiescence_loop_min Hall (T := Math_min beta T)).
      * reflexivity.
      * revert Hab Hcut. generalize (evaluateBoard game). clear. score_solve.
      * apply best_of_min_init, Hfull.
Qed.

End Pruning.

(** C9: with [alpha <= beta], a value returned by [quiescence] lies in
    the closed window [[alpha, beta]].  The search is fail-hard: when the
    stand-pat score already fails high (maximizing) the value is exactly
    [beta], when it fails low (minimizing) it is exactly [alpha], and,
    given that [undo] takes back a legal move, the value is the exhaustive
    capture value clamped to the window, so every fail-high returns [beta]
    and every fail-low returns [alpha]. *)
Theorem quiescence_in_window {Game : Type} `{ChessEngine Game}
    (fuel : nat) (alpha beta : score) (isMax : bool) (game game' : Game) (v : score) :
  score_le alpha beta ->
  quiescence fuel alpha beta isMax game = Some (v, game') ->
  in_window alpha beta v /\
  (isMax = true -> score_le beta (evaluateBoard game) -> v = beta) /\
  (isMax = false -> score_le (evaluateBoard game) alpha -> v = alpha) /\
  (undo_restores ->
   forall T, quiescenceFull fuel isMax game = Some T ->
     v = clamp alpha beta T /\
     (score_le beta T -> v = beta) /\
     (score_le T alpha -> v = alpha)).
Proof.
  intros Hab Hrun.
  destruct (quiescence_window fuel isMax game Hab Hrun) as [Hin [Hhigh Hlow]].
  split; [exact Hin|]. split; [exact Hhigh|]. split; [exact Hlow|].
  intros Hundo T Hfull.
  rewrite (quiescence_clamp Hundo fuel isMax game Hfull Hab) in Hrun.
  inversion Hrun; subst. split; [reflexivity|].
  split; intros HT; revert Hab HT; clear; unfold clamp; score_solve.
Qed.

Lemma quiescence_in_window_witness :
  quiescence 5 (Finite 0) (Finite 600) true Examples.middleGame
    = Some (Finite 512, Examples.middleGame) /\
  in_window (Finite 0) (Finite 600) (Finite 512).
Proof.
  split; [reflexivity|].
  exact (proj1 (@quiescence_in_window _ _ 5 (Finite 0) (Finite 600) true
                  Examples.middleGame Examples.middleGame (Finite 512) eq_refl eq_refl)).
Defined.

Section PruningMinimax.
Context {Game : Type} `{ChessEngine Game}.
Hypothesis Hundo : undo_restores.

Lemma sound_on_tail rec full game m rest :
  sound_on rec full game (m :: rest) -> sound_on rec full game rest.
Proof. intros Hall m' Hin. apply Hall. right. exact Hin. Qed.

(** The maximizing loop.  [a] is the [alpha] the node was entered with;
    the running [alpha] is [Math_max a maxEval], and [maxEval] agrees with
    the exhaustive maximum [M0] above [a]. *)
Lemma max_loop_sound rec full game ms (a beta : score) :
  sound_on rec full game ms ->
  forall maxEval M0 T,
    score_lt (Math_max a maxEval) beta ->
    Math_max a maxEval = Math_max a M0 ->
    best_of true M0 (map (fun m => full false (move game m)) ms) = Some T ->
    exists v, max_loop rec ms maxEval (Math_max a maxEval) beta game = Some (v, game) /\
              bounds a beta v T.
Proof.
  induction ms as [|m rest IH]; intros Hall maxEval M0 T Hlt Hinv Hbest.
  - simpl in *. unfold ret. inversion Hbest; subst. eexists. split; [reflexivity|].
    revert Hlt Hinv. clear. unfold bounds. score_solve.
  - cbn [map best_of] in Hbest.
    destruct (full false (move game m)) as [T1|] eqn:Hfull; [|discriminate].
    destruct (Hall m (or_introl eq_refl)) as [Hlegal Hcall].
    destruct (Hcall false T1 _ _ Hfull Hlt) as [v1 [Hv1 Hb1]].
    rewrite max_loop_cons, Hv1, !(Hundo _ _ Hlegal).
    pose proof (best_of_max_ge _ _ Hbest) as Hge.
    destruct (score_leb beta (Math_max (Math_max a maxEval) v1)) eqn:Hcut.
    + eexists. split; [reflexivity|].
      assert (Hv1b : score_le beta v1) by (revert Hlt Hcut; clear; score_solve).
      assert (HT1 : score_le beta T1) by (apply Hb1, Hv1b).
      assert (HT : score_le beta T) by (revert HT1 Hge; clear; score_solve).
      revert Hlt Hv1b HT. clear. unfold bounds. score_solve.
    + assert (Hv1b : score_lt v1 beta) by (revert Hcut; clear; score_solve).
      pose proof (bounds_max Hb1 Hv1b) as Hmax.
      rewrite Math_max_assoc.
      apply (IH (sound_on_tail Hall) _ (Math_max M0 T1)).
      * rewrite <- Math_max_assoc. unfold score_lt, score_ltb. rewrite Hcut. reflexivity.
      * rewrite <- !Math_max_assoc, Hmax, Hinv. reflexivity.
      * exact Hbest.
Qed.

Lemma min_loop_sound rec full game ms (alpha c : score) :
  sound_on rec full game ms ->
  forall minEval M0 T,
    score_lt alpha (Math_min c minEval) ->
    Math_min c minEval = Math_min c M0 ->
    best_of false M0 (map (fun m => full true (move game m)) ms) = Some T ->
    exists v, min_loop rec ms minEval alpha (Math_min c minEval) game = Some (v, game) /\
              bounds alpha c v T.
Proof.
  induction ms as [|m rest IH]; intros Hall minEval M0 T Hlt Hinv Hbest.
  - simpl in *. unfold ret. inversion Hbest; subst. eexists. split; [reflexivity|].
    revert Hlt Hinv. clear. unfold bounds. score_solve.
  - cbn [map best_of] in Hbest.
    destruct (full true (move game m)) as [T1|] eqn:Hfull; [|discriminate].
    destruct (Hall m (or_introl eq_refl)) as [Hlegal Hcall].
    destruct (Hcall true T1 _ _ Hfull Hlt) as [v1 [Hv1 Hb1]].
    rewrite min_loop_cons, Hv1, !(Hundo _ _ Hlegal).
    pose proof (best_of_min_le _ _ Hbest) as Hge.
    destruct (score_leb (Math_min (Math_min c minEval) v1) alpha) eqn:Hcut.
    + eexists. split; [reflexivity|].
      assert (Hv1b : score_le v1 alpha) by (revert Hlt Hcut; clear; score_solve).
      assert (HT1 : score_le T1 alpha) by (apply Hb1, Hv1b).
      assert (HT : score_le T alpha) by (revert HT1 Hge; clear; score_solve).
      revert Hlt Hv1b HT. clear. unfold bounds. score_solve.
    + assert (Hv1b : score_lt alpha v1) by (revert Hcut; clear; score_solve).
      pose proof (bounds_min Hb1 Hv1b) as Hmin.
      rewrite Math_min_assoc.
      apply (IH (sound_on_tail Hall) _ (Math_min M0 T1)).
      * rewrite <- Math_min_assoc. unfold score_lt, score_ltb. rewrite Hcut. reflexivity.
      * rewrite <- !Math_min_assoc, Hmin, Hinv. reflexivity.
      * exact Hbest.
Qed.

Lemma minimax_sound (fuel : nat) :
  forall depth mx game T alpha beta,
    minimaxFull fuel depth mx game = Some T ->
    score_lt alpha beta ->
    exists v, minimax fuel depth alpha beta mx game = Some (v, game) /\
              bounds alpha beta v T.
Proof.
  induction fuel as [|fuel IH]; intros depth mx game T alpha beta Hfull Hab; [discriminate|].
  cbn [minimaxFull] in Hfull. rewrite minimax_S.
  destruct ((depth =? 0) || isGameOver game).
  - exists (clamp alpha beta T). split; [|apply bounds_clamp, Hab].
    apply (quiescence_clamp Hundo); [exact Hfull | apply score_ltb_leb, Hab].
  - rewrite <- (best_of_perm mx
                  (Permutation_map
                     (fun m => minimaxFull fuel (depth - 1) (negb mx) (move game m))
                     (sort_perm compareMoves (moves game)))) in Hfull.
    assert (Hall : sound_on (minimax fuel (depth - 1)) (minimaxFull fuel (depth - 1)) game
                     (sort compareMoves (moves game))).
    { intros m Hin. apply sort_In in Hin. split; [exact Hin|].
      intros mx' T' a c Hf Hac. apply IH; assumption. }
    destruct mx; cbn [negb] in Hfull.
    + change alpha with (Math_max alpha NegInfinity) at 1.
      eapply max_loop_sound with (M0 := NegInfinity);
        [exact Hall | exact Hab | reflexivity | exact Hfull].
    + assert (Hloop : exists v,
                 min_loop (minimax fuel (depth - 1)) (sort compareMoves (moves game))
                   Infinity alpha (Math_min beta Infinity) game = Some (v, game) /\
                 bounds alpha beta v T).
      { eapply min_loop_sound with (M0 := Infinity);
          [exact Hall | rewrite Math_min_Infinity; exact Hab | reflexivity | exact Hfull]. }
      rewrite Math_min_Infinity in Hloop. exact Hloop.
Qed.

End PruningMinimax.

(** The exhaustive search returns, too, once the fuel covers the depth and
    the measure of the position. *)
Lemma best_of_defined (isMax : bool) (l : list (option score)) :
  (forall x, In x l -> exists v, x = Some v) ->
  forall best, exists T, best_of isMax best l = Some T.
Proof.
  induction l as [|x rest IH]; intros Hall best; simpl.
  - eauto.
  - destruct (Hall x (or_introl eq_refl)) as [v ->].
    apply IH. intros y Hin. apply Hall. right. exact Hin.
Qed.

Section ExhaustiveTermination.
Context {Game : Type} `{ChessEngine Game}.
Variable mu : Game -> nat.
Hypothesis Hshrink : captures_shrink mu.

Lemma quiescenceFull_terminates (fuel : nat) :
  forall mx game, (mu game < fuel)%nat -> exists T, quiescenceFull fuel mx game = Some T.
Proof.
  induction fuel as [|fuel IH]; intros mx game Hfuel; [lia|].
  cbn [quiescenceFull]. apply best_of_defined.
  intros x Hin. apply in_map_iff in Hin. destruct Hin as [m [<- Hin]].
  apply filter_In in Hin. destruct Hin as [Hlegal Hc].
  apply IH. destruct (Hshrink game m Hlegal) as [_ Hlt]. specialize (Hlt Hc). lia.
Qed.

Lemma minimaxFull_terminates (fuel : nat) :
  forall depth mx game,
    0 <= depth ->
    (Z.to_nat depth + mu game + 1 < fuel)%nat ->
    exists T, minimaxFull fuel depth mx game = Some T.
Proof.
  induction fuel as [|fuel IH]; intros depth mx game Hdepth Hfuel; [lia|].
  cbn [minimaxFull].
  destruct (depth =? 0) eqn:Hzero; simpl.
  - apply quiescenceFull_terminates. lia.
  - destruct (isGameOver game); [apply quiescenceFull_terminates; lia|].
    apply Z.eqb_neq in Hzero. apply best_of_defined.
    intros x Hin. apply in_map_iff in Hin. destruct Hin as [m [<- Hin]].
    apply IH; [lia|]. destruct (Hshrink game m Hin) as [Hle _]. lia.
Qed.

(** Both searches return, and with the same value. *)
Lemma pruning_total (depth : Z) (isMax : bool) (game : Game) :
  undo_restores ->
  0 <= depth ->
  exists T,
    minimaxFull (Z.to_nat depth + mu game + 2) depth isMax game = Some T /\
    minimax (Z.to_nat depth + mu game + 2) depth NegInfinity Infinity isMax game
    = Some (T, game).
Proof.
  intros Hundo Hdepth.
  destruct (@minimaxFull_terminates (Z.to_nat depth + mu game + 2) depth isMax game)
    as [T HT]; [exact Hdepth | lia |].
  exists T. split; [exact HT|].
  destruct (minimax_sound Hundo _ depth isMax game (alpha := NegInfinity)
              (beta := Infinity) HT eq_refl) as [v [Hv Hb]].
  apply bounds_full_window in Hb. subst v. exact Hv.
Qed.

End ExhaustiveTermination.

(** C2: pruning changes nothing in the value.  Given that the engine's
    [undo] takes back a legal [move], whenever the exhaustive search of a
    position to some depth has the value [T], the alpha-beta search of that
    position to the same depth with the window (-Infinity, Infinity) returns
    [T] (and restores the position).  The root driver runs exactly this
    search on the position after each root move, so the value it computes
    for every root move, the selected one among them, is the exhaustive
    value.  This holds for every depth, 3 and below included. *)
Theorem pruning_preserves_value {Game : Type} `{ChessEngine Game} :
  undo_restores ->
  (forall fuel depth isMax game T,
      minimaxFull fuel depth isMax game = Some T ->
      minimax fuel depth NegInfinity Infinity isMax game = Some (T, game)) /\
  (forall fuel depth game m T,
      minimaxFull fuel (depth - 1) (negb (Color_eqb (turn game) White))
        (move (newChess (fen game)) m) = Some T ->
      rootValue fuel game depth (Color_eqb (turn game) White) m = Some T).
Proof.
  intros Hundo.
  assert (Hmain : forall fuel depth isMax game T,
             minimaxFull fuel depth isMax game = Some T ->
             minimax fuel depth NegInfinity Infinity isMax game = Some (T, game)).
  { intros fuel depth isMax game T Hfull.
    destruct (minimax_sound Hundo fuel depth isMax game (alpha := NegInfinity)
                (beta := Infinity) Hfull eq_refl) as [v [Hv Hb]].
    apply bounds_full_window in Hb. subst v. exact Hv. }
  split; [exact Hmain|].
  intros fuel depth game m T Hfull. unfold rootValue.
  rewrite (Hmain _ _ _ _ _ Hfull). reflexivity.
Qed.

Lemma pruning_preserves_value_witness :
  minimaxFull 5 2 true Examples.middleGame = Some (Finite 640) /\
  minimax 5 2 NegInfinity Infinity true Examples.middleGame
    = Some (Finite 640, Examples.middleGame) /\
  rootValue 6 Examples.middleGame 2 true Examples.Bxf7 = Some (Finite 282).
Proof.
  split; [reflexivity|]. split.
  - exact (proj1 (pruning_preserves_value Toy_undo_restores)
             5%nat 2 true Examples.middleGame (Finite 640) eq_refl).
  - exact (proj2 (pruning_preserves_value Toy_undo_restores)
             6%nat 2 Examples.middleGame Examples.Bxf7 (Finite 282) eq_refl).
Defined.

(** ** The root driver *)

Section Root.
Context {Game : Type} `{ChessEngine Game}.
Variables (fuel : nat) (game : Game) (depth : Z) (isMax : bool).

Lemma root_loop_cons (m : Move) (rest : list Move) (best : Move) (bestValue : score) :
  root_loop fuel game depth isMax (m :: rest) best bestValue =
  match rootValue fuel game depth isMax m with
  | None => None
  | Some boardValue =>
      if strictlyBetter isMax boardValue bestValue
      then root_loop fuel game depth isMax rest m boardValue
      else root_loop fuel game depth isMax rest best bestValue
  end.
Proof.
  unfold strictlyBetter. simpl.
  destruct (rootValue fuel game depth isMax m); [|reflexivity].
  destruct isMax; reflexivity.
Qed.

Lemma root_loop_selected (ms : list Move) :
  forall done best bestValue r rv,
    selected fuel game depth isMax done best bestValue ->
    root_loop fuel game depth isMax ms best bestValue = Some (r, rv) ->
    selected fuel game depth isMax (done ++ ms) r rv.
Proof.
  induction ms as [|m rest IH]; intros done best bestValue r rv Hsel Hrun.
  - simpl in Hrun. inversion Hrun; subst. rewrite app_nil_r. exact Hsel.
  - rewrite root_loop_cons in Hrun.
    destruct (rootValue fuel game depth isMax m) as [v|] eqn:Hv; [|discriminate].
    replace (done ++ m :: rest) with ((done ++ [m]) ++ rest)
      by (rewrite <- app_assoc; reflexivity).
    destruct (strictlyBetter isMax v bestValue) eqn:Hbetter;
      (eapply IH; [|exact Hrun]).
    + (* the new move becomes the selected one *)
      right. exists done, []. split; [reflexivity|]. split; [exact Hv|].
      split; [|intros m' []].
      intros m' Hin. destruct Hsel as [[Hworst Hall] | [pre [post [Hdone [Hb [Hpre Hpost]]]]]].
      * exists (if isMax then NegInfinity else Infinity). split; [apply Hall, Hin|]. subst bestValue. exact Hbetter.
      * subst done. apply in_app_or in Hin. destruct Hin as [Hin | [Heq | Hin]].
        -- destruct (Hpre m' Hin) as [w [Hw Hlt]]. exists w. split; [exact Hw|].
           revert Hlt Hbetter. clear. unfold strictlyBetter. destruct isMax; score_solve.
        -- subst m'. exists bestValue. split; [exact Hb | exact Hbetter].
        -- destruct (Hpost m' Hin) as [w [Hw Hle]]. exists w. split; [exact Hw|].
           revert Hle Hbetter. clear. unfold strictlyBetter. destruct isMax; score_solve.
    + (* the selection stays *)
      destruct Hsel as [[Hworst Hall] | [pre [post [Hdone [Hb [Hpre Hpost]]]]]].
      * left. split; [exact Hworst|]. intros m' Hin.
        apply in_app_or in Hin. destruct Hin as [Hin | [Heq | []]]; [apply Hall, Hin|].
        subst m' bestValue. rewrite Hv. f_equal.
        revert Hbetter. clear. unfold strictlyBetter. destruct isMax; score_solve.
      * right. exists pre, (post ++ [m]). subst done.
        split; [rewrite <- app_assoc; reflexivity|]. split; [exact Hb|].
        split; [exact Hpre|]. intros m' Hin.
        apply in_app_or in Hin. destruct Hin as [Hin | [Heq | []]]; [apply Hpost, Hin|].
        subst m'. exists v. split; [exact Hv | exact Hbetter].
Qed.

End Root.



(** ** The difficulty move selector *)

Lemma other_move_exists (l : list Move) (best : Move) :
  NoDup (map san l) -> (2 <= List.length l)%nat ->
  exists m, In m l /\ san m <> san best.
Proof.
  destruct l as [|x [|y rest]]; simpl; intros Hnd Hlen; try lia.
  destruct (String.eqb (san x) (san best)) eqn:Hx.
  - apply String.eqb_eq in Hx. exists y. split; [tauto|].
    inversion Hnd as [|? ? Hnotin _]; subst. intros Hy. apply Hnotin. left. congruence.
  - apply String.eqb_neq in Hx. exists x. split; [tauto | exact Hx].
Qed.

(** *** The double product *)

Lemma pow2_pos (e : Z) : (0 < pow2 e)%Q.
Proof. apply Qpower_0_lt. reflexivity. Qed.

Lemma pow2_plus (a c : Z) : (pow2 (a + c) == pow2 a * pow2 c)%Q.
Proof. apply Qpower_plus. discriminate. Qed.

Lemma pow2_le (a c : Z) : a <= c -> (pow2 a <= pow2 c)%Q.
Proof. intros Hac. apply Qpower_le_compat_l; [exact Hac | discriminate]. Qed.

Lemma pow2_Z (a : Z) : 0 <= a -> (pow2 a == inject_Z (2 ^ a))%Q.
Proof. intros Ha. unfold pow2. rewrite Zpower_Qpower by exact Ha. reflexivity. Qed.

Lemma ilog2_le (x : Q) : (0 < x)%Q -> (pow2 (ilog2 x) <= x)%Q.
Proof.
  intros Hx. unfold ilog2.
  destruct (Qle_bool (pow2 (Z.log2 (Qnum x) - Z.log2 (Z.pos (Qden x)))) x) eqn:Htest.
  - apply Qle_bool_iff, Htest.
  - clear Htest. destruct x as [a d]. cbn [Qnum Qden].
    assert (Ha : 0 < a) by (unfold Qlt in Hx; simpl in Hx; lia).
    pose proof (Z.log2_spec a Ha) as [Hla _].
    pose proof (Z.log2_spec (Z.pos d) (Pos2Z.is_pos d)) as [_ Hld].
    pose proof (Z.log2_nonneg a) as Hla0.
    pose proof (Z.log2_nonneg (Z.pos d)) as Hld0.
    replace (Z.log2 a - Z.log2 (Z.pos d) - 1)
      with (Z.log2 a + - Z.succ (Z.log2 (Z.pos d))) by lia.
    rewrite pow2_plus. unfold pow2 at 2. rewrite Qpower_opp.
    fold (pow2 (Z.succ (Z.log2 (Z.pos d)))).
    rewrite !pow2_Z by lia.
    set (P := 2 ^ Z.log2 a) in *. set (R := 2 ^ Z.succ (Z.log2 (Z.pos d))) in *.
    assert (HR : 0 < R) by lia.
    apply Qle_shift_div_r; [change 0%Q with (inject_Z 0); rewrite <- Zlt_Qlt; exact HR|].
    unfold Qle, Qmult, inject_Z. cbn [Qnum Qden]. nia.
Qed.

Lemma ilog2_lt (x : Q) (c : Z) : (0 < x)%Q -> (x < pow2 c)%Q -> ilog2 x < c.
Proof.
  intros Hx Hc. apply (Qpower_lt_compat_l_inv 2); [|reflexivity].
  eapply Qle_lt_trans; [apply ilog2_le, Hx | exact Hc].
Qed.

Lemma quotient_times (x : Q) :
  (x / pow2 (ulpExponent x) * pow2 (ulpExponent x) == x)%Q.
Proof.
  rewrite Qmult_comm. apply Qmult_div_r.
  intros H0. pose proof (pow2_pos (ulpExponent x)) as Hp. rewrite H0 in Hp. discriminate.
Qed.

Lemma quotient_nonneg (x : Q) : (0 < x)%Q -> (0 <= x / pow2 (ulpExponent x))%Q.
Proof.
  intros Hx. apply Qle_shift_div_l; [apply pow2_pos|]. lra.
Qed.

(** The last place is worth at most [x * 2^-52], or the subnormal step. *)
Lemma ulp_le (x : Q) :
  (0 < x)%Q -> (pow2 (ulpExponent x) <= x * pow2 (-52) + pow2 (-1074))%Q.
Proof.
  intros Hx.
  pose proof (pow2_pos (-52)) as H52. pose proof (pow2_pos (-1074)) as H1074.
  unfold ulpExponent. destruct (Z.max_spec (ilog2 x - 52) (-1074)) as [[_ ->] | [_ ->]].
  - assert (0 <= x * pow2 (-52))%Q by (apply Qmult_le_0_compat; lra). lra.
  - replace (ilog2 x - 52) with (ilog2 x + -52) by lia. rewrite pow2_plus.
    pose proof (@ilog2_le x Hx) as Hl.
    assert (pow2 (ilog2 x) * pow2 (-52) <= x * pow2 (-52))%Q
      by (apply Qmult_le_compat_r; lra).
    lra.
Qed.

(** Rounding goes up by at most half a unit in the last place. *)
Lemma roundPositive_upper (x : Q) :
  (0 < x)%Q ->
  (roundPositive x <= x + (x * pow2 (-52) + pow2 (-1074)) * (1 # 2))%Q.
Proof.
  intros Hx. unfold roundPositive.
  set (u := ulpExponent x). set (q := (x / pow2 u)%Q). set (f := Qfloor q).
  set (g := match (q - inject_Z f ?= 1 # 2)%Q with
            | Lt => f | Gt => f + 1 | Eq => if Z.even f then f else f + 1 end).
  assert (Hg : (inject_Z g <= q + (1 # 2))%Q).
  { pose proof (Qfloor_le q) as Hf. fold f in Hf. unfold g.
    destruct (q - inject_Z f ?= 1 # 2)%Q eqn:Hc.
    - apply Qeq_alt in Hc. destruct (Z.even f).
      + lra.
      + rewrite inject_Z_plus. change (inject_Z 1) with 1%Q. lra.
    - lra.
    - apply Qgt_alt in Hc. rewrite inject_Z_plus. change (inject_Z 1) with 1%Q. lra. }
  pose proof (pow2_pos u) as Hp. pose proof (@ulp_le x Hx) as Hu.
  pose proof (quotient_times x) as Hq. fold u in Hu, Hq. fold q in Hq.
  assert (Hm : (inject_Z g * pow2 u <= (q + (1 # 2)) * pow2 u)%Q)
    by (apply Qmult_le_compat_r; lra).
  assert (Hexp : ((q + (1 # 2)) * pow2 u == x + pow2 u * (1 # 2))%Q)
    by (rewrite <- Hq; ring).
  rewrite Hexp in Hm. clear Hexp Hq Hg. clearbody g q.
  set (P := pow2 u) in *. set (GP := (inject_Z g * P)%Q) in *.
  set (c := (x * pow2 (-52) + pow2 (-1074))%Q) in *.
  clearbody GP c P. lra.
Qed.

Lemma roundPositive_nonneg (x : Q) : (0 < x)%Q -> (0 <= roundPositive x)%Q.
Proof.
  intros Hx. unfold roundPositive.
  set (u := ulpExponent x). set (q := (x / pow2 u)%Q). set (f := Qfloor q).
  assert (Hf : 0 <= f).
  { change 0 with (Qfloor 0). apply Qfloor_resp_le, quotient_nonneg, Hx. }
  apply Qmult_le_0_compat; [|apply Qlt_le_weak, pow2_pos].
  change 0%Q with (inject_Z 0). rewrite <- Zle_Qle.
  destruct (q - inject_Z f ?= 1 # 2)%Q; [destruct (Z.even f)| |]; lia.
Qed.

(** Below 2^53 rounding does not go below an integer under [x]. *)
Lemma roundPositive_lower (x : Q) (i : Z) :
  (0 < x)%Q ->
  (inject_Z i <= x)%Q -> (x < pow2 53)%Q -> (inject_Z i <= roundPositive x)%Q.
Proof.
  intros Hx Hi Hbig.
  assert (Hu : ulpExponent x <= 0).
  { pose proof (@ilog2_lt x 53 Hx Hbig). unfold ulpExponent. lia. }
  unfold roundPositive. pose proof (quotient_times x) as Hq. revert Hu Hq.
  set (u := ulpExponent x). set (q := (x / pow2 u)%Q). set (f := Qfloor q).
  set (g := match (q - inject_Z f ?= 1 # 2)%Q with
            | Lt => f | Gt => f + 1 | Eq => if Z.even f then f else f + 1 end).
  intros Hu Hq.
  assert (Hfg : f <= g)
    by (unfold g; destruct (q - inject_Z f ?= 1 # 2)%Q; [destruct (Z.even f)| |]; lia).
  pose proof (pow2_pos u) as Hp.
  assert (Hone : (pow2 (- u) * pow2 u == 1)%Q).
  { rewrite <- pow2_plus. replace (- u + u) with 0 by lia. reflexivity. }
  assert (Hscaled : (inject_Z (i * 2 ^ (- u)) <= q)%Q).
  { rewrite inject_Z_mult, <- pow2_Z by lia.
    apply (Qmult_le_r _ _ (pow2 u)); [exact Hp|].
    rewrite Hq, <- Qmult_assoc, Hone. lra. }
  assert (Hfloor : i * 2 ^ (- u) <= f).
  { unfold f. rewrite <- (Qfloor_Z (i * 2 ^ (- u))). apply Qfloor_resp_le, Hscaled. }
  assert (Hgq : (inject_Z (i * 2 ^ (- u)) <= inject_Z g)%Q)
    by (rewrite <- Zle_Qle; lia).
  rewrite inject_Z_mult, <- pow2_Z in Hgq by lia.
  assert (Hm : (inject_Z i * pow2 (- u) * pow2 u <= inject_Z g * pow2 u)%Q)
    by (apply Qmult_le_compat_r; lra).
  rewrite <- Qmult_assoc, Hone in Hm. lra.
Qed.

Lemma round64_positive (x : Q) : (0 < x)%Q -> round64 x = roundPositive x.
Proof.
  intros Hx. unfold round64. destruct x as [[|a|a] d]; try reflexivity;
    unfold Qlt in Hx; simpl in Hx; lia.
Qed.

Lemma round64_zero (x : Q) : (x == 0)%Q -> round64 x = 0%Q.
Proof.
  intros Hx. unfold round64. destruct x as [[|a|a] d]; try reflexivity;
    unfold Qeq in Hx; simpl in Hx; lia.
Qed.

(** The product [0.7 * 10] lies halfway between two doubles and rounds to
    the even one, 7: the index read is 7, not 6. *)
Lemma round64_seven_tenths :
  double double_0_7 /\
  (double_0_7 * 10 < 7)%Q /\
  (round64 (double_0_7 * 10) == 7)%Q /\
  Qfloor (round64 (double_0_7 * 10)) = 7.
Proof.
  split; [|split; [|split]]; try reflexivity.
  exists 6305039478318694, (-53). split; [reflexivity|]. split; [lia | reflexivity].
Qed.

(** The largest double below 1 is [1 - 2^-53]. *)
Lemma double_below_one (r : Q) :
  double r -> (r < 1)%Q -> (r <= 1 - pow2 (-53))%Q.
Proof.
  intros [m [e [Hm [He Hr]]]] Hlt.
  pose proof (pow2_pos e) as Hpe.
  destruct (Z_lt_le_dec e (-53)) as [Hsmall | Hlarge].
  - (* a small exponent: the value is below one half *)
    assert (Hp : (pow2 e <= pow2 (-54))%Q) by (apply pow2_le; lia).
    assert (Hmq : (inject_Z m <= inject_Z (2 ^ 53))%Q) by (rewrite <- Zle_Qle; lia).
    destruct (Z_lt_le_dec m 0) as [Hneg | Hpos].
    + assert (inject_Z m * pow2 e <= 0)%Q.
      { assert (Hm0 : (inject_Z m <= 0)%Q)
          by (change 0%Q with (inject_Z 0); rewrite <- Zle_Qle; lia).
        setoid_replace 0%Q with (0 * pow2 e)%Q by ring.
        apply Qmult_le_compat_r; lra. }
      assert (pow2 (-53) <= 1 # 2)%Q by (vm_compute; discriminate). lra.
    + assert (Hm0 : (0 <= inject_Z m)%Q)
        by (change 0%Q with (inject_Z 0); rewrite <- Zle_Qle; lia).
      assert (H1 : (inject_Z m * pow2 e <= inject_Z m * pow2 (-54))%Q).
      { rewrite !(Qmult_comm (inject_Z m)). apply Qmult_le_compat_r; lra. }
      assert (H2 : (inject_Z m * pow2 (-54) <= inject_Z (2 ^ 53) * pow2 (-54))%Q).
      { apply Qmult_le_compat_r; [lra | apply Qlt_le_weak, pow2_pos]. }
      assert (H3 : (inject_Z (2 ^ 53) * pow2 (-54) <= 1 - pow2 (-53))%Q)
        by (vm_compute; discriminate).
      lra.
  - (* the value is an integer multiple of 2^-53 *)
    assert (Hk : (r == inject_Z (m * 2 ^ (e + 53)) * pow2 (-53))%Q).
    { rewrite Hr, inject_Z_mult, <- pow2_Z by lia.
      rewrite <- Qmult_assoc, <- pow2_plus. replace (e + 53 + -53) with e by lia.
      reflexivity. }
    set (j := m * 2 ^ (e + 53)) in *.
    assert (Hj : j < 2 ^ 53).
    { rewrite Zlt_Qlt.
      assert (H53 : (pow2 53 * pow2 (-53) == 1)%Q) by reflexivity.
      apply (Qmult_lt_r _ _ (pow2 (-53))); [apply pow2_pos|].
      rewrite <- Hk. rewrite <- pow2_Z by lia. rewrite H53. exact Hlt. }
    assert (Hj' : (inject_Z j <= inject_Z (2 ^ 53 - 1))%Q) by (rewrite <- Zle_Qle; lia).
    assert (H2 : (inject_Z j * pow2 (-53) <= inject_Z (2 ^ 53 - 1) * pow2 (-53))%Q).
    { apply Qmult_le_compat_r; [lra | apply Qlt_le_weak, pow2_pos]. }
    assert (H3 : (inject_Z (2 ^ 53 - 1) * pow2 (-53) == 1 - pow2 (-53))%Q) by reflexivity.
    lra.
Qed.

(** The rounded product of a draw and a count stays below the count. *)
Lemma product_in_range (r : Q) (n : Z) :
  (0 <= r)%Q -> (r <= 1 - pow2 (-53))%Q -> 1 <= n ->
  (0 <= round64 (r * inject_Z n))%Q /\ (round64 (r * inject_Z n) < inject_Z n)%Q.
Proof.
  intros Hlo Hhi Hn.
  assert (Hnq : (1 <= inject_Z n)%Q) by (change 1%Q with (inject_Z 1); rewrite <- Zle_Qle; lia).
  assert (Hx0 : (0 <= r * inject_Z n)%Q) by (apply Qmult_le_0_compat; lra).
  destruct (Qlt_le_dec 0 (r * inject_Z n)) as [Hpos | Hzero].
  - rewrite (round64_positive Hpos). split; [apply roundPositive_nonneg, Hpos|].
    pose proof (@roundPositive_upper _ Hpos) as Hup.
    assert (Hx : (r * inject_Z n <= (1 - pow2 (-53)) * inject_Z n)%Q)
      by (apply Qmult_le_compat_r; lra).
    set (x := (r * inject_Z n)%Q) in *.
    assert (H52 : (pow2 (-52) == 2 * pow2 (-53))%Q) by reflexivity.
    assert (Hsq : (pow2 (-53) * pow2 (-53) == pow2 (-106))%Q) by reflexivity.
    assert (Htiny : (pow2 (-1074) * (1 # 2) < pow2 (-106))%Q) by reflexivity.
    assert (H106 : (pow2 (-106) <= pow2 (-106) * inject_Z n)%Q).
    { rewrite <- (Qmult_1_r (pow2 (-106))) at 1.
      rewrite !(Qmult_comm (pow2 (-106))). apply Qmult_le_compat_r; [lra|].
      apply Qlt_le_weak, pow2_pos. }
    assert (Hxm : (x * pow2 (-53) <= (1 - pow2 (-53)) * inject_Z n * pow2 (-53))%Q)
      by (apply Qmult_le_compat_r; [lra | apply Qlt_le_weak, pow2_pos]).
    assert (Hexp : ((1 - pow2 (-53)) * inject_Z n * pow2 (-53)
                    == inject_Z n * pow2 (-53) - pow2 (-53) * pow2 (-53) * inject_Z n)%Q)
      by ring.
    rewrite Hsq in Hexp.
    assert (Hexp2 : ((1 - pow2 (-53)) * inject_Z n == inject_Z n - inject_Z n * pow2 (-53))%Q)
      by ring.
    assert (Hup' : (roundPositive x <= x + x * pow2 (-53) + pow2 (-1074) * (1 # 2))%Q).
    { setoid_replace (x + x * pow2 (-53) + pow2 (-1074) * (1 # 2))%Q
        with (x + (x * pow2 (-52) + pow2 (-1074)) * (1 # 2))%Q; [exact Hup|].
      rewrite H52. ring. }
    rewrite Hexp in Hxm. rewrite Hexp2 in Hx. lra.
  - assert (Heq : (r * inject_Z n == 0)%Q) by lra.
    rewrite (round64_zero Heq). split; lra.
Qed.

(** Where the exact product has to lie for the index [i] to be read. *)
Lemma product_floor (r : Q) (n i : Z) :
  0 <= i -> i + 1 <= n -> n <= 2 ^ 53 ->
  (inject_Z i <= r * inject_Z n)%Q ->
  (r * inject_Z n <= inject_Z (i + 1) * (1 - pow2 (-53)))%Q ->
  Qfloor (round64 (r * inject_Z n)) = i.
Proof.
  intros Hi Hin Hn Hlo Hhi.
  set (x := (r * inject_Z n)%Q) in *.
  assert (Hi1 : (1 <= inject_Z (i + 1))%Q)
    by (change 1%Q with (inject_Z 1); rewrite <- Zle_Qle; lia).
  assert (Hi2 : (inject_Z (i + 1) <= pow2 53)%Q)
    by (rewrite pow2_Z by lia; rewrite <- Zle_Qle; lia).
  assert (Hp53 : (0 < pow2 (-53))%Q) by apply pow2_pos.
  assert (Hprod : (pow2 (-53) <= inject_Z (i + 1) * pow2 (-53))%Q).
  { rewrite <- (Qmult_1_l (pow2 (-53))) at 1. apply Qmult_le_compat_r; lra. }
  assert (Hexp : (inject_Z (i + 1) * (1 - pow2 (-53))
                  == inject_Z (i + 1) - inject_Z (i + 1) * pow2 (-53))%Q) by ring.
  rewrite Hexp in Hhi.
  destruct (Qlt_le_dec 0 x) as [Hpos | Hzero].
  - rewrite (round64_positive Hpos).
    assert (Hbig : (x < pow2 53)%Q) by lra.
    pose proof (@roundPositive_lower x i Hpos Hlo Hbig) as Hlow.
    pose proof (@roundPositive_upper _ Hpos) as Hup.
    assert (H52 : (pow2 (-52) == 2 * pow2 (-53))%Q) by reflexivity.
    assert (Hsq : (pow2 (-53) * pow2 (-53) == pow2 (-106))%Q) by reflexivity.
    assert (Htiny : (pow2 (-1074) * (1 # 2) < pow2 (-106))%Q) by reflexivity.
    assert (Hup' : (roundPositive x <= x + x * pow2 (-53) + pow2 (-1074) * (1 # 2))%Q).
    { setoid_replace (x + x * pow2 (-53) + pow2 (-1074) * (1 # 2))%Q
        with (x + (x * pow2 (-52) + pow2 (-1074)) * (1 # 2))%Q; [exact Hup|].
      rewrite H52. ring. }
    assert (Hxm : (x * pow2 (-53)
                   <= (inject_Z (i + 1) - inject_Z (i + 1) * pow2 (-53)) * pow2 (-53))%Q)
      by (apply Qmult_le_compat_r; lra).
    assert (Hexp3 : ((inject_Z (i + 1) - inject_Z (i + 1) * pow2 (-53)) * pow2 (-53)
                     == inject_Z (i + 1) * pow2 (-53)
                        - pow2 (-53) * pow2 (-53) * inject_Z (i + 1))%Q) by ring.
    rewrite Hexp3, Hsq in Hxm.
    assert (H106 : (pow2 (-106) <= pow2 (-106) * inject_Z (i + 1))%Q).
    { rewrite <- (Qmult_1_r (pow2 (-106))) at 1.
      rewrite !(Qmult_comm (pow2 (-106))). apply Qmult_le_compat_r; [lra|].
      apply Qlt_le_weak, pow2_pos. }
    assert (Hlt : (roundPositive x < inject_Z (i + 1))%Q) by lra.
    assert (H1 : Qfloor (roundPositive x) < i + 1).
    { rewrite Zlt_Qlt. eapply Qle_lt_trans; [apply Qfloor_le | exact Hlt]. }
    assert (H2 : i <= Qfloor (roundPositive x)).
    { rewrite <- (Qfloor_Z i). apply Qfloor_resp_le, Hlow. }
    lia.
  - assert (Hi0 : (inject_Z i <= 0)%Q) by lra.
    change 0%Q with (inject_Z 0) in Hi0. rewrite <- Zle_Qle in Hi0.
    assert (Heq : (x == 0)%Q).
    { assert (0 <= inject_Z i)%Q by (change 0%Q with (inject_Z 0); rewrite <- Zle_Qle; lia).
      lra. }
    rewrite (round64_zero Heq). change (Qfloor 0) with 0. lia.
Qed.

(** The index the selector reads is inside the array. *)
Lemma random_index_in_range (random : Q) (len : nat) :
  double random -> (0 <= random)%Q -> (random < 1)%Q -> (0 < len)%nat ->
  (Z.to_nat (Qfloor (round64 (random * inject_Z (Z.of_nat len)))) < len)%nat.
Proof.
  intros Hd Hlo Hhi Hlen.
  destruct (@product_in_range random (Z.of_nat len) Hlo (@double_below_one random Hd Hhi))
    as [H0 H1]; [lia|].
  set (y := round64 (random * inject_Z (Z.of_nat len))) in *.
  assert (Hf0 : 0 <= Qfloor y).
  { change 0 with (Qfloor 0). apply Qfloor_resp_le, H0. }
  assert (Hf1 : Qfloor y < Z.of_nat len).
  { rewrite Zlt_Qlt. eapply Qle_lt_trans; [apply Qfloor_le | exact H1]. }
  lia.
Qed.

Lemma double_half : double (1 # 2).
Proof. exists 1, (-1). split; [reflexivity|]. split; [lia | reflexivity]. Qed.

Section Selector.
Context {Game : Type} `{ChessEngine Game}.

(** C7: take a position with at least two legal moves, on which the root
    search finds the best move [best]; the two random draws are in
    [0, 1) and the second one is a double.  With an error rate of 1 the
    selector never returns [best]: for every outcome of the draws it
    returns the alternative at the index the code reads, the floor of the
    double product [random2 * count], a legal move other than [best].
    With an error rate of 0 it returns [best] for every outcome of the
    draws. *)
Theorem findComputerMove_error_rate (settings : Settings) (fuel : nat) (game : Game)
    (random1 random2 : Q) (best : Move) :
  findBestMoveForAnalysis fuel game (depth settings) = Some (Some best) ->
  (2 <= List.length (moves game))%nat ->
  san_unambiguous game ->
  (0 <= random1)%Q -> (random1 < 1)%Q ->
  (0 <= random2)%Q -> (random2 < 1)%Q -> double random2 ->
  (errorRate settings == 1 ->
     exists m,
       findComputerMoveWith settings fuel game random1 random2 = Some (Some m) /\
       nth_error (alternatives game best)
         (Z.to_nat (Qfloor (round64
            (random2 * inject_Z (Z.of_nat (List.length (alternatives game best)))))))
       = Some m /\
       In m (moves game) /\ san m <> san best /\ m <> best)%Q /\
  (errorRate settings == 0 ->
     findComputerMoveWith settings fuel game random1 random2 = Some (Some best))%Q.
Proof.
  intros Hbest Hlen Hsan Hr1lo Hr1hi Hr2lo Hr2hi Hr2d.
  assert (Hlen1 : (1 <? List.length (moves game))%nat = true) by (apply Nat.ltb_lt; lia).
  unfold findComputerMoveWith. rewrite Hbest, Hlen1. cbn [andb].
  fold (alternatives game best). split; intros Herr.
  - assert (Hdraw : Qle_bool (errorRate settings) random1 = false).
    { destruct (Qle_bool (errorRate settings) random1) eqn:Hle; [|reflexivity].
      apply Qle_bool_iff in Hle. rewrite Herr in Hle.
      exfalso. exact (Qlt_not_le _ _ Hr1hi Hle). }
    rewrite Hdraw. cbn [negb].
    destruct (@other_move_exists (moves game) best Hsan Hlen) as [m' [Hin' Hne']].
    assert (Halt : In m' (alternatives game best)).
    { apply filter_In. split; [exact Hin'|].
      apply negb_true_iff, String.eqb_neq, Hne'. }
    assert (Hcount : (0 < List.length (alternatives game best))%nat)
      by (destruct (alternatives game best); [destruct Halt | simpl; lia]).
    assert (Hcount1 : (0 <? List.length (alternatives game best))%nat = true)
      by (apply Nat.ltb_lt, Hcount).
    rewrite Hcount1.
    pose proof (random_index_in_range Hr2d Hr2lo Hr2hi Hcount) as Hidx.
    apply nth_error_Some in Hidx.
    destruct (nth_error (alternatives game best)
                (Z.to_nat (Qfloor (round64 (random2 *
                   inject_Z (Z.of_nat (List.length (alternatives game best))))))))
      as [m|] eqn:Hnth; [|congruence].
    exists m. split; [reflexivity|]. split; [reflexivity|].
    apply nth_error_In, filter_In in Hnth. destruct Hnth as [Hin Hne].
    apply negb_true_iff, String.eqb_neq in Hne.
    repeat split; trivial. intros ->. apply Hne. reflexivity.
  - assert (Hdraw : Qle_bool (errorRate settings) random1 = true)
      by (apply Qle_bool_iff; rewrite Herr; exact Hr1lo).
    rewrite Hdraw. reflexivity.
Qed.

End Selector.

Lemma findComputerMove_error_rate_witness :
  (exists m,
      findComputerMoveWith Examples.alwaysErr 6 Examples.middleGame (1 # 2) (1 # 2)
      = Some (Some m) /\
      nth_error (alternatives Examples.middleGame Examples.exd6)
        (Z.to_nat (Qfloor (round64 ((1 # 2) * inject_Z (Z.of_nat
           (List.length (alternatives Examples.middleGame Examples.exd6)))))))
      = Some m /\
      In m (moves Examples.middleGame) /\ san m <> san Examples.exd6 /\ m <> Examples.exd6) /\
  findComputerMoveWith Examples.neverErr 6 Examples.middleGame (1 # 2) (1 # 2)
  = Some (Some Examples.exd6).
Proof.
  assert (Hlen : (2 <= List.length (moves Examples.middleGame))%nat) by (simpl; lia).
  assert (Hsan : san_unambiguous Examples.middleGame).
  { unfold san_unambiguous. simpl.
    repeat (constructor; [simpl; intuition discriminate|]). constructor. }
  assert (Hlo : (0 <= 1 # 2)%Q) by (unfold Qle; simpl; lia).
  assert (Hhi : (1 # 2 < 1)%Q) by (unfold Qlt; simpl; lia).
  assert (Hbest : findBestMoveForAnalysis 6 Examples.middleGame 2 = Some (Some Examples.exd6))
    by reflexivity.
  split.
  - apply (proj1 (@findComputerMove_error_rate _ _ Examples.alwaysErr 6%nat
                    Examples.middleGame (1 # 2) (1 # 2) Examples.exd6
                    Hbest Hlen Hsan Hlo Hhi Hlo Hhi double_half)).
    reflexivity.
  - apply (proj2 (@findComputerMove_error_rate _ _ Examples.neverErr 6%nat
                    Examples.middleGame (1 # 2) (1 # 2) Examples.exd6
                    Hbest Hlen Hsan Hlo Hhi Hlo Hhi double_half)).
    reflexivity.
Defined.


(* ================================================================== *)
(** * Further properties of the engine *)

(** ** The evaluator *)

Lemma evaluateBoard_mirror_witness :
  evaluateBoard Examples.rookPositionMirrored
  = score_neg (evaluateBoard Examples.rookPosition) /\
  evaluateBoard Examples.rookPosition = Finite 305.
Proof.
  split; [|reflexivity].
  apply (@evaluateBoard_mirror _ _ Examples.rookPosition Examples.rookPositionMirrored);
    try reflexivity.
  split; [reflexivity|]. repeat constructor.
Defined.

Lemma squareValue_bound (sq : option Piece) (rowIndex colIndex : nat) :
  (rowIndex < 8)%nat -> (colIndex < 8)%nat ->
  - squareBound <= squareValue sq rowIndex colIndex <= squareBound.
Proof.
  intros Hr Hc. unfold squareBound.
  do 8 (destruct rowIndex as [|rowIndex]; [
    do 8 (destruct colIndex as [|colIndex]; [
      destruct sq as [[[] []]|]; vm_compute; split; discriminate |]); lia |]).
  lia.
Qed.

Lemma rowSum_bound (row : list (option Piece)) (rowIndex : nat) :
  (rowIndex < 8)%nat ->
  forall colIndex,
    (colIndex + List.length row <= 8)%nat ->
    - (squareBound * Z.of_nat (List.length row))
    <= rowSum rowIndex colIndex row
    <= squareBound * Z.of_nat (List.length row).
Proof.
  intros Hr. induction row as [|sq rest IH]; intros colIndex Hlen;
    cbn [rowSum List.length] in *; [lia|].
  assert (Hsq := @squareValue_bound sq rowIndex colIndex Hr ltac:(lia)).
  specialize (IH (S colIndex) ltac:(lia)). lia.
Qed.

Lemma boardSum_bound (bd : Board) :
  Forall (fun row => List.length row = 8%nat) bd ->
  forall rowIndex,
    (rowIndex + List.length bd <= 8)%nat ->
    - (8 * squareBound * Z.of_nat (List.length bd))
    <= boardSum rowIndex bd
    <= 8 * squareBound * Z.of_nat (List.length bd).
Proof.
  induction 1 as [|row rest Hrow _ IH]; intros rowIndex Hlen;
    cbn [boardSum List.length] in *; [lia|].
  assert (Hr := @rowSum_bound row rowIndex ltac:(lia) 0%nat ltac:(lia)).
  rewrite Hrow in Hr. specialize (IH (S rowIndex) ltac:(lia)). lia.
Qed.

(** X2: [evaluateBoard] returns an infinity exactly on a checkmate
    position.  On any other position it returns an integer: 0 when the
    position is a draw, and otherwise a sum that, on an 8 x 8 board, stays
    within 64 times the largest weight of a square, far inside the range in
    which a double holds integers exactly. *)
Theorem evaluateBoard_finite {Game : Type} `{ChessEngine Game} (game : Game) :
  (isCheckmate game = true <->
   evaluateBoard game = Infinity \/ evaluateBoard game = NegInfinity) /\
  (isCheckmate game = false -> isDraw game = true -> evaluateBoard game = Finite 0) /\
  (isCheckmate game = false -> board_wf (board game) ->
   exists z, evaluateBoard game = Finite z /\ - (64 * squareBound) <= z <= 64 * squareBound).
Proof.
  unfold evaluateBoard. split; [|split].
  - destruct (isCheckmate game).
    + split; [intros _|reflexivity]. destruct (turn game); simpl; tauto.
    + split; [discriminate|]. destruct (isDraw game); intros [Hc|Hc]; discriminate.
  - intros -> ->. reflexivity.
  - intros -> [Hlen Hrows]. destruct (isDraw game).
    + exists 0. split; [reflexivity|]. unfold squareBound. lia.
    + exists (boardTotal (board game)). split; [reflexivity|].
      rewrite boardTotal_boardSum.
      pose proof (@boardSum_bound (board game) Hrows 0%nat ltac:(lia)) as Hb.
      rewrite Hlen in Hb. lia.
Qed.

Lemma evaluateBoard_finite_witness :
  (evaluateBoard Examples.whiteMated = Infinity \/
   evaluateBoard Examples.whiteMated = NegInfinity) /\
  exists z, evaluateBoard Examples.middleGame = Finite z /\
            - (64 * squareBound) <= z <= 64 * squareBound.
Proof.
  split.
  - apply (proj1 (proj1 (evaluateBoard_finite Examples.whiteMated))). reflexivity.
  - apply (proj2 (proj2 (evaluateBoard_finite Examples.middleGame))); [reflexivity|].
    split; [reflexivity|]. repeat constructor.
Defined.

(** ** Quiescence and minimax *)

(** X3: the side to move may always stand pat.  With [alpha <= beta], a
    value returned by [quiescence] for the maximizing side is at least the
    static evaluation (capped at [beta]), and for the minimizing side at
    most the static evaluation (raised to [alpha]). *)
Theorem quiescence_stand_pat {Game : Type} `{ChessEngine Game}
    (fuel : nat) (alpha beta : score) (isMax : bool) (game game' : Game) (v : score) :
  score_le alpha beta ->
  quiescence fuel alpha beta isMax game = Some (v, game') ->
  (isMax = true -> score_le (Math_min beta (evaluateBoard game)) v) /\
  (isMax = false -> score_le v (Math_max alpha (evaluateBoard game))).
Proof.
  intros Hab Hrun. destruct fuel as [|fuel]; [discriminate|].
  rewrite quiescence_S in Hrun. destruct isMax.
  - split; [intros _ | discriminate].
    destruct (score_leb beta (evaluateBoard game)) eqn:Hcut.
    + injection Hrun as Hv _. subst v. revert Hcut. generalize (evaluateBoard game). clear.
      intros s. score_solve.
    + apply quiescence_loop_window in Hrun.
      * destruct Hrun as [Hlo _]. revert Hlo Hcut. generalize (evaluateBoard game). clear.
        intros s. score_solve.
      * revert Hab Hcut. generalize (evaluateBoard game). clear. intros s. score_solve.
  - split; [discriminate | intros _].
    destruct (score_leb (evaluateBoard game) alpha) eqn:Hcut.
    + injection Hrun as Hv _. subst v. revert Hcut. generalize (evaluateBoard game). clear.
      intros s. score_solve.
    + apply quiescence_loop_window in Hrun.
      * destruct Hrun as [_ Hhi]. revert Hhi Hcut. generalize (evaluateBoard game). clear.
        intros s. score_solve.
      * revert Hab Hcut. generalize (evaluateBoard game). clear. intros s. score_solve.
Qed.

Lemma quiescence_stand_pat_witness :
  evaluateBoard Examples.middleGame = Finite 512 /\
  score_le (Math_min Infinity (evaluateBoard Examples.middleGame)) (Finite 512).
Proof.
  split; [reflexivity|].
  exact (proj1 (@quiescence_stand_pat _ _ 5 NegInfinity Infinity true
                  Examples.middleGame Examples.middleGame (Finite 512) eq_refl eq_refl)
           eq_refl).
Defined.

(** X4: quiescence has no depth limit, and returns all the same: when
    [undo] takes back a legal move and some measure of the position shrinks
    with every capture, a call returns after at most that many nested
    captures, whatever the window, and leaves the position as it found
    it. *)
Theorem quiescence_returns {Game : Type} `{ChessEngine Game} (mu : Game -> nat)
    (alpha beta : score) (isMax : bool) (game : Game) :
  undo_restores ->
  captures_shrink mu ->
  exists v, quiescence (S (mu game)) alpha beta isMax game = Some (v, game).
Proof.
  intros Hundo Hshrink. apply (quiescence_terminates Hundo Hshrink). lia.
Qed.

Lemma quiescence_returns_witness :
  exists v, quiescence (S (Toy.height (fst Examples.middleGame))) (Finite 0) (Finite 600) true
              Examples.middleGame = Some (v, Examples.middleGame).
Proof.
  exact (@quiescence_returns _ _ (fun game => Toy.height (fst game)) (Finite 0) (Finite 600)
           true Examples.middleGame Toy_undo_restores Toy_captures_shrink).
Defined.

(** X5: what [minimax] returns on a window that is not the full one.  When
    [undo] takes back a legal move and the exhaustive search of the position
    has the value [T], a call with [alpha < beta] returns a value [v] and
    restores the position; [v] strictly inside the window is exactly [T], a
    [v] at or below [alpha] means that [T] is at most [alpha], and a [v] at
    or above [beta] means that [T] is at least [beta]. *)
Theorem minimax_window {Game : Type} `{ChessEngine Game}
    (fuel : nat) (depth : Z) (isMax : bool) (game : Game) (T alpha beta : score) :
  undo_restores ->
  minimaxFull fuel depth isMax game = Some T ->
  score_lt alpha beta ->
  exists v,
    minimax fuel depth alpha beta isMax game = Some (v, game) /\
    (score_le v alpha -> score_le T alpha) /\
    (score_le beta v -> score_le beta T) /\
    (score_lt alpha v -> score_lt v beta -> v = T).
Proof.
  intros Hundo Hfull Hab. exact (minimax_sound Hundo fuel depth isMax game Hfull Hab).
Qed.

Lemma minimax_window_witness :
  exists v,
    minimax 5 2 (Finite 300) (Finite 500) true Examples.middleGame
    = Some (v, Examples.middleGame) /\
    (score_le v (Finite 300) -> score_le (Finite 640) (Finite 300)) /\
    (score_le (Finite 500) v -> score_le (Finite 500) (Finite 640)) /\
    (score_lt (Finite 300) v -> score_lt v (Finite 500) -> v = Finite 640).
Proof.
  exact (@minimax_window _ _ 5 2 true Examples.middleGame (Finite 640) (Finite 300)
           (Finite 500) Toy_undo_restores eq_refl eq_refl).
Defined.

Lemma quiet_value {Game : Type} `{ChessEngine Game}
    (fuel : nat) (depth : Z) (alpha beta : score) (isMax : bool) (game : Game) :
  captureMoves game = [] ->
  score_le alpha beta ->
  quiescence (S fuel) alpha beta isMax game
  = Some (clamp alpha beta (evaluateBoard game), game) /\
  (isGameOver game = true ->
   minimax (S (S fuel)) depth alpha beta isMax game
   = Some (clamp alpha beta (evaluateBoard game), game)).
Proof.
  intros Hquiet Hab.
  assert (Hq : quiescence (S fuel) alpha beta isMax game
               = Some (clamp alpha beta (evaluateBoard game), game)).
  { rewrite quiescence_S, Hquiet. cbn [quiescence_loop]. unfold ret, clamp.
    revert Hab. generalize (evaluateBoard game). intros s Hab.
    destruct isMax.
    - destruct (score_leb beta s) eqn:Hcut; do 2 f_equal;
        revert Hab Hcut; clear; score_solve.
    - destruct (score_leb s alpha) eqn:Hcut; do 2 f_equal;
        revert Hab Hcut; clear; score_solve. }
  split; [exact Hq|]. intros Hover.
  rewrite minimax_S, Hover, orb_true_r. exact Hq.
Qed.

(** X6: a position without captures is evaluated statically.  With
    [alpha <= beta], [quiescence] on a position that has no move flagged
    ['c'] returns the static evaluation clamped to the window, and so does
    [minimax], at every depth, on a finished game that has no move flagged
    ['c'] (a checkmate or a stalemate, for one, has no legal move at all).
    Nothing is said of a finished game that still has such a move, a draw
    by the fifty-move rule for one: quiescence goes on and searches its
    captures. *)
Theorem quiet_position_value {Game : Type} `{ChessEngine Game}
    (fuel : nat) (depth : Z) (alpha beta : score) (isMax : bool) (game : Game) :
  captureMoves game = [] ->
  score_le alpha beta ->
  quiescence (S fuel) alpha beta isMax game
  = Some (clamp alpha beta (evaluateBoard game), game) /\
  (isGameOver game = true ->
   minimax (S (S fuel)) depth alpha beta isMax game
   = Some (clamp alpha beta (evaluateBoard game), game)).
Proof. apply quiet_value. Qed.

Lemma quiet_position_value_witness :
  quiescence 1 NegInfinity Infinity true Examples.whiteMated
  = Some (NegInfinity, Examples.whiteMated) /\
  minimax 2 3 NegInfinity Infinity true Examples.whiteMated
  = Some (NegInfinity, Examples.whiteMated).
Proof.
  pose proof (@quiet_position_value _ _ 0%nat 3 NegInfinity Infinity true
                Examples.whiteMated eq_refl eq_refl) as [Hq Hm].
  split; [exact Hq | exact (Hm eq_refl)].
Defined.

(** ** Move ordering *)

Section Ordering.
Context {A : Type}.
Variable key : A -> Z.

Lemma sort_insert_descending (x : A) (l : list A) :
  descending key l -> descending key (sort_insert (fun a c => key c - key a) x l).
Proof.
  unfold descending. induction 1 as [|y rest Hrest IH Hy]; simpl.
  - constructor; constructor.
  - destruct (key y - key x <=? 0) eqn:Hcmp.
    + apply Z.leb_le in Hcmp. constructor; [constructor; assumption|].
      constructor; [lia|]. eapply Forall_impl; [|exact Hy]. simpl. intros z Hz. lia.
    + apply Z.leb_gt in Hcmp. constructor; [exact IH|].
      eapply Permutation_Forall; [apply Permutation_sym, sort_insert_perm|].
      constructor; [lia | exact Hy].
Qed.

Lemma sort_descending (l : list A) :
  descending key (sort (fun a c => key c - key a) l).
Proof.
  induction l as [|x rest IH]; simpl.
  - constructor.
  - apply sort_insert_descending, IH.
Qed.

Lemma descending_split (l1 l2 l3 : list A) (a c : A) :
  descending key (l1 ++ a :: l2 ++ c :: l3) -> key c <= key a.
Proof.
  unfold descending. induction l1 as [|x l1 IH]; simpl; intros Hs.
  - apply StronglySorted_inv in Hs. destruct Hs as [_ Hall].
    rewrite Forall_forall in Hall. apply Hall, in_or_app. right. left. reflexivity.
  - apply StronglySorted_inv in Hs. apply IH, Hs.
Qed.

End Ordering.

(** X7: the two move orderings lose nothing and search the heaviest move
    first.  The list [quiescence] iterates over is a rearrangement of the
    legal moves flagged as captures, in descending order of
    value(captured) - value(mover); the list [minimax] iterates over is a
    rearrangement of all legal moves, in descending order of the ordering
    score. *)
Theorem search_order {Game : Type} `{ChessEngine Game} (game : Game) :
  Permutation (captureMoves game) (filter (fun m => includes (flags m) "c") (moves game)) /\
  descending captureScore (captureMoves game) /\
  Permutation (sort compareMoves (moves game)) (moves game) /\
  descending orderScore (sort compareMoves (moves game)).
Proof.
  split; [apply sort_perm|]. split; [apply (sort_descending captureScore)|].
  split; [apply sort_perm | apply (sort_descending orderScore)].
Qed.

(** X8: where the ordering score puts the moves flagged ['c'].  A move
    whose flags lack ['c'] and that does not promote scores 0: a quiet
    move, and an en-passant capture (flags ["e"]) just the same.  A move
    flagged ['c'] that takes a piece other than the king with a piece other
    than the king scores at least 100; a move flagged ['c'] made by the
    king, without promotion, scores at most -11000.  In the order [minimax]
    searches, a move never comes before a move with a higher score: the
    king's flagged captures are searched after the moves that score 0, the
    other flagged captures before them. *)
Theorem capture_ranks {Game : Type} `{ChessEngine Game} (game : Game) :
  (forall m, includes (flags m) "c" = false -> promotion m = None -> orderScore m = 0) /\
  (forall m x, includes (flags m) "c" = true -> captured m = Some x -> x <> King ->
               piece m <> King -> 100 <= orderScore m) /\
  (forall m x, includes (flags m) "c" = true -> captured m = Some x -> x <> King ->
               piece m = King -> promotion m = None -> orderScore m <= -11000) /\
  (forall l1 l2 l3 a c,
      sort compareMoves (moves game) = l1 ++ a :: l2 ++ c :: l3 ->
      orderScore c <= orderScore a).
Proof.
  split; [|split; [|split]].
  - intros m Hc Hp. unfold orderScore. rewrite Hc, Hp. reflexivity.
  - intros m x Hc Hx Hnk Hpk. unfold orderScore. rewrite Hc, Hx. simpl.
    destruct x; try congruence; destruct (piece m); try congruence;
      destruct (promotion m) as [[]|]; simpl; lia.
  - intros m x Hc Hx Hnk Hpk Hp. unfold orderScore. rewrite Hc, Hx, Hpk, Hp. simpl.
    destruct x; try congruence; simpl; lia.
  - intros l1 l2 l3 a c Hsplit. apply (@descending_split _ orderScore l1 l2 l3).
    rewrite <- Hsplit. apply (sort_descending orderScore).
Qed.

Lemma capture_ranks_witness :
  sort compareMoves (moves Examples.middleGame) = [Examples.Bxf7; Examples.Nf3; Examples.exd6] /\
  orderScore Examples.Nf3 = 0 /\
  100 <= orderScore Examples.Bxf7 /\
  orderScore (Toy.capture "Kxf7" King Bishop) <= -11000 /\
  orderScore Examples.exd6 <= orderScore Examples.Bxf7.
Proof.
  pose proof (capture_ranks Examples.middleGame) as [Hquiet [Hcap [Hking Hsort]]].
  split; [reflexivity|]. split; [apply Hquiet; reflexivity|].
  split; [apply (Hcap Examples.Bxf7 Pawn); (reflexivity || discriminate)|].
  split; [apply (Hking (Toy.capture "Kxf7" King Bishop) Bishop);
            (reflexivity || discriminate)|].
  apply (Hsort [] [Examples.Nf3] [] Examples.Bxf7 Examples.exd6). reflexivity.
Defined.


(** ** The root driver and the selector *)

Lemma root_loop_In {Game : Type} `{ChessEngine Game}
    (fuel : nat) (game : Game) (depth : Z) (isMax : bool) (ms : list Move) :
  forall best bestValue r rv,
    root_loop fuel game depth isMax ms best bestValue = Some (r, rv) ->
    r = best \/ In r ms.
Proof.
  induction ms as [|m rest IH]; intros best bestValue r rv Hrun.
  - simpl in Hrun. left. congruence.
  - rewrite root_loop_cons in Hrun.
    destruct (rootValue fuel game depth isMax m) as [v|]; [|discriminate].
    destruct (strictlyBetter isMax v bestValue); apply IH in Hrun; simpl; intuition.
Qed.

Lemma findBestMoveForAnalysis_cases {Game : Type} `{ChessEngine Game}
    (fuel : nat) (game : Game) (depth : Z) (r : option Move) :
  findBestMoveForAnalysis fuel game depth = Some r ->
  match r with
  | None => moves game = []
  | Some m => In m (moves game)
  end.
Proof.
  unfold findBestMoveForAnalysis. destruct (moves game) as [|first rest]; intros Hrun.
  - inversion Hrun. reflexivity.
  - destruct (root_loop fuel game depth (Color_eqb (turn game) White) (first :: rest) first
                (if Color_eqb (turn game) White then NegInfinity else Infinity))
      as [[best v]|] eqn:Hloop; [|discriminate].
    inversion Hrun; subst r. apply root_loop_In in Hloop.
    destruct Hloop as [-> | Hin]; [left; reflexivity | exact Hin].
Qed.

(** X9: what the root driver returns, when it returns: [null] exactly when
    the position has no legal move, and otherwise one of the legal moves of
    the position; a position with a single legal move gets that move,
    whatever the search finds. *)
Theorem root_returns_legal_move {Game : Type} `{ChessEngine Game}
    (fuel : nat) (game : Game) (depth : Z) (r : option Move) :
  findBestMoveForAnalysis fuel game depth = Some r ->
  (r = None <-> moves game = []) /\
  (forall m, r = Some m -> In m (moves game)) /\
  (forall m, moves game = [m] -> r = Some m).
Proof.
  intros Hrun. apply findBestMoveForAnalysis_cases in Hrun.
  split; [|split].
  - destruct r as [m|]; split; trivial; try discriminate.
    intros Hnil. rewrite Hnil in Hrun. destruct Hrun.
  - intros m ->. exact Hrun.
  - intros m Hone. rewrite Hone in Hrun. destruct r as [m'|]; [|discriminate].
    destruct Hrun as [-> | []]. reflexivity.
Qed.

Lemma root_returns_legal_move_witness :
  (Some Examples.exd6 = None <-> moves Examples.middleGame = []) /\
  (forall m, Some Examples.exd6 = Some m -> In m (moves Examples.middleGame)) /\
  (forall m, moves Examples.middleGame = [m] -> Some Examples.exd6 = Some m).
Proof.
  apply (@root_returns_legal_move _ _ 6%nat Examples.middleGame 2). reflexivity.
Defined.

(** X10: what the selector returns, when it returns and the second random
    draw is a double in [0, 1): [null] exactly when the position has no
    legal move, and otherwise a legal move of the position, for every
    settings record and every first draw; a position with a single legal
    move gets that move. *)
Theorem selector_returns_legal_move {Game : Type} `{ChessEngine Game}
    (settings : Settings) (fuel : nat) (game : Game) (random1 random2 : Q)
    (r : option Move) :
  double random2 -> (0 <= random2)%Q -> (random2 < 1)%Q ->
  findComputerMoveWith settings fuel game random1 random2 = Some r ->
  (r = None <-> moves game = []) /\
  (forall m, r = Some m -> In m (moves game)) /\
  (forall m, moves game = [m] -> r = Some m).
Proof.
  intros Hd Hlo Hhi Hrun. unfold findComputerMoveWith in Hrun.
  destruct (findBestMoveForAnalysis fuel game (depth settings)) as [[best|]|] eqn:Hbest;
    [| |discriminate].
  - pose proof (findBestMoveForAnalysis_cases _ _ _ Hbest) as Hin. cbn beta iota in Hin.
    assert (Hne : moves game <> []) by (intros Hnil; rewrite Hnil in Hin; destruct Hin).
    fold (alternatives game best) in Hrun.
    assert (Hres : exists m, r = Some m /\ In m (moves game) /\
                             ((1 <? List.length (moves game))%nat = false -> m = best)).
    { destruct (1 <? List.length (moves game))%nat eqn:Hmany; cbn [andb] in Hrun.
      - destruct (negb (Qle_bool (errorRate settings) random1)).
        + destruct (0 <? List.length (alternatives game best))%nat eqn:Hcount.
          * apply Nat.ltb_lt in Hcount.
            pose proof (random_index_in_range Hd Hlo Hhi Hcount) as Hidx.
            apply nth_error_Some in Hidx.
            destruct (nth_error (alternatives game best)
                        (Z.to_nat (Qfloor (round64 (random2 *
                           inject_Z (Z.of_nat (List.length (alternatives game best))))))))
              as [m|] eqn:Hnth; [|congruence].
            inversion Hrun; subst r. exists m. split; [reflexivity|].
            apply nth_error_In, filter_In in Hnth. split; [tauto | discriminate].
          * inversion Hrun; subst r. exists best. repeat split; trivial.
        + inversion Hrun; subst r. exists best. repeat split; trivial.
      - inversion Hrun; subst r. exists best. repeat split; trivial. }
    destruct Hres as [m [-> [Hm Hsingle]]].
    split; [|split].
    + split; [discriminate | intros Hnil; contradiction].
    + intros m' Heq. inversion Heq; subst. exact Hm.
    + intros m' Hone. rewrite Hone in Hm, Hin, Hsingle.
      destruct Hm as [-> | []]. reflexivity.
  - pose proof (findBestMoveForAnalysis_cases _ _ _ Hbest) as Hnil. cbn beta iota in Hnil.
    inversion Hrun; subst r. split; [|split].
    + tauto.
    + discriminate.
    + intros m Hone. congruence.
Qed.

Lemma selector_returns_legal_move_witness :
  (Some Examples.Bxf7 = None <-> moves Examples.middleGame = []) /\
  (forall m, Some Examples.Bxf7 = Some m -> In m (moves Examples.middleGame)) /\
  (forall m, moves Examples.middleGame = [m] -> Some Examples.Bxf7 = Some m).
Proof.
  apply (@selector_returns_legal_move _ _ Examples.alwaysErr 6%nat Examples.middleGame
           (1 # 2) (1 # 2)).
  - exact double_half.
  - unfold Qle; simpl; lia.
  - unfold Qlt; simpl; lia.
  - reflexivity.
Defined.

(** X11: the error rate is a threshold on the first random draw.  On a
    position with at least two legal moves, named unambiguously, on which
    the root search finds [best], the second draw being a double in
    [0, 1): when the first draw is below the error rate the selector
    returns one of the alternatives, a legal move other than [best]; when
    the first draw is at or above the error rate it returns [best]. *)
Theorem selector_threshold {Game : Type} `{ChessEngine Game}
    (settings : Settings) (fuel : nat) (game : Game) (random1 random2 : Q) (best : Move) :
  findBestMoveForAnalysis fuel game (depth settings) = Some (Some best) ->
  (2 <= List.length (moves game))%nat ->
  san_unambiguous game ->
  double random2 -> (0 <= random2)%Q -> (random2 < 1)%Q ->
  ((random1 < errorRate settings)%Q ->
     exists m, findComputerMoveWith settings fuel game random1 random2 = Some (Some m) /\
               In m (alternatives game best) /\ In m (moves game) /\ san m <> san best) /\
  ((errorRate settings <= random1)%Q ->
     findComputerMoveWith settings fuel game random1 random2 = Some (Some best)).
Proof.
  intros Hbest Hlen Hsan Hd Hlo Hhi.
  assert (Hlen1 : (1 <? List.length (moves game))%nat = true) by (apply Nat.ltb_lt; lia).
  unfold findComputerMoveWith. rewrite Hbest, Hlen1. cbn [andb].
  fold (alternatives game best). split; intros Herr.
  - assert (Hdraw : Qle_bool (errorRate settings) random1 = false).
    { destruct (Qle_bool (errorRate settings) random1) eqn:Hle; [|reflexivity].
      apply Qle_bool_iff in Hle. exfalso. exact (Qlt_not_le _ _ Herr Hle). }
    rewrite Hdraw. cbn [negb].
    destruct (@other_move_exists (moves game) best Hsan Hlen) as [m' [Hin' Hne']].
    assert (Halt : In m' (alternatives game best)).
    { apply filter_In. split; [exact Hin'|]. apply negb_true_iff, String.eqb_neq, Hne'. }
    assert (Hcount : (0 < List.length (alternatives game best))%nat)
      by (destruct (alternatives game best); [destruct Halt | simpl; lia]).
    assert (Hcount1 : (0 <? List.length (alternatives game best))%nat = true)
      by (apply Nat.ltb_lt, Hcount).
    rewrite Hcount1.
    pose proof (random_index_in_range Hd Hlo Hhi Hcount) as Hidx.
    apply nth_error_Some in Hidx.
    destruct (nth_error (alternatives game best)
                (Z.to_nat (Qfloor (round64 (random2 *
                   inject_Z (Z.of_nat (List.length (alternatives game best))))))))
      as [m|] eqn:Hnth; [|congruence].
    exists m. split; [reflexivity|].
    apply nth_error_In in Hnth. split; [exact Hnth|].
    apply filter_In in Hnth. destruct Hnth as [Hin Hne].
    apply negb_true_iff, String.eqb_neq in Hne. split; assumption.
  - assert (Hdraw : Qle_bool (errorRate settings) random1 = true)
      by (apply Qle_bool_iff; exact Herr).
    rewrite Hdraw. reflexivity.
Qed.

Lemma selector_threshold_witness :
  (exists m, findComputerMoveWith Examples.oftenErr 6 Examples.middleGame (1 # 2) (1 # 4)
             = Some (Some m) /\
             In m (alternatives Examples.middleGame Examples.exd6) /\
             In m (moves Examples.middleGame) /\ san m <> san Examples.exd6) /\
  findComputerMoveWith Examples.oftenErr 6 Examples.middleGame (9 # 10) (1 # 4)
  = Some (Some Examples.exd6).
Proof.
  assert (Hlen : (2 <= List.length (moves Examples.middleGame))%nat) by (simpl; lia).
  assert (Hsan : san_unambiguous Examples.middleGame).
  { unfold san_unambiguous. simpl.
    repeat (constructor; [simpl; intuition discriminate|]). constructor. }
  assert (Hlo : (0 <= 1 # 4)%Q) by (unfold Qle; simpl; lia).
  assert (Hhi : (1 # 4 < 1)%Q) by (unfold Qlt; simpl; lia).
  assert (Hd : double (1 # 4))
    by (exists 1, (-2); split; [reflexivity|]; split; [lia | reflexivity]).
  assert (Hbest : findBestMoveForAnalysis 6 Examples.middleGame 2 = Some (Some Examples.exd6))
    by reflexivity.
  split.
  - apply (proj1 (@selector_threshold _ _ Examples.oftenErr 6%nat Examples.middleGame
                    (1 # 2) (1 # 4) Examples.exd6 Hbest Hlen Hsan Hd Hlo Hhi)).
    unfold Qlt; simpl; lia.
  - apply (proj2 (@selector_threshold _ _ Examples.oftenErr 6%nat Examples.middleGame
                    (9 # 10) (1 # 4) Examples.exd6 Hbest Hlen Hsan Hd Hlo Hhi)).
    unfold Qle; simpl; lia.
Defined.

(** X12: the substitute is drawn with nearly equal weights.  When the
    selector errs, the alternative at index [i], of [count] alternatives
    (at most 2^53), is returned for every second draw whose exact product
    [random2 * count] lies between [i] and [(i + 1) * (1 - 2^-53)]: the
    double product then rounds to a double in [[i, i + 1)].  (Closer to
    [i + 1] the product may round up to [i + 1], as [0.7 * 10] does.) *)
Theorem selector_uniform {Game : Type} `{ChessEngine Game}
    (settings : Settings) (fuel : nat) (game : Game) (random1 random2 : Q)
    (best m : Move) (i : nat) :
  findBestMoveForAnalysis fuel game (depth settings) = Some (Some best) ->
  (2 <= List.length (moves game))%nat ->
  (random1 < errorRate settings)%Q ->
  Z.of_nat (List.length (alternatives game best)) <= 2 ^ 53 ->
  nth_error (alternatives game best) i = Some m ->
  (inject_Z (Z.of_nat i)
   <= random2 * inject_Z (Z.of_nat (List.length (alternatives game best))))%Q ->
  (random2 * inject_Z (Z.of_nat (List.length (alternatives game best)))
   <= inject_Z (Z.of_nat i + 1) * (1 - pow2 (-53)))%Q ->
  findComputerMoveWith settings fuel game random1 random2 = Some (Some m).
Proof.
  intros Hbest Hlen Herr Hsize Hnth Hlo Hhi.
  assert (Hlen1 : (1 <? List.length (moves game))%nat = true) by (apply Nat.ltb_lt; lia).
  unfold findComputerMoveWith. rewrite Hbest, Hlen1. cbn [andb].
  fold (alternatives game best).
  assert (Hdraw : Qle_bool (errorRate settings) random1 = false).
  { destruct (Qle_bool (errorRate settings) random1) eqn:Hle; [|reflexivity].
    apply Qle_bool_iff in Hle. exfalso. exact (Qlt_not_le _ _ Herr Hle). }
  rewrite Hdraw. cbn [negb].
  assert (Hi : (i < List.length (alternatives game best))%nat)
    by (apply nth_error_Some; congruence).
  assert (Hcount : (0 <? List.length (alternatives game best))%nat = true)
    by (apply Nat.ltb_lt; lia).
  rewrite Hcount.
  rewrite (@product_floor random2 (Z.of_nat (List.length (alternatives game best)))
             (Z.of_nat i)) by (trivial; lia).
  rewrite Nat2Z.id, Hnth. reflexivity.
Qed.

Lemma selector_uniform_witness :
  findComputerMoveWith Examples.alwaysErr 6 Examples.middleGame (1 # 2) (3 # 4)
  = Some (Some Examples.Bxf7).
Proof.
  apply (@selector_uniform _ _ Examples.alwaysErr 6%nat Examples.middleGame (1 # 2) (3 # 4)
           Examples.exd6 Examples.Bxf7 1%nat).
  - reflexivity.
  - simpl; lia.
  - unfold Qlt; simpl; lia.
  - simpl; lia.
  - reflexivity.
  - unfold Qle; simpl; lia.
  - vm_compute; discriminate.
Defined.

(** X13: every difficulty of the table ends its search.  The depths of
    the four tiers are at least 1, so, when [undo] takes back a legal move
    and captures shrink some measure, [findComputerMove] returns for every
    position, every tier and every outcome of the random draws; and every
    error rate of the table lies between 0 and 1. *)
Theorem every_tier_returns {Game : Type} `{ChessEngine Game} (mu : Game -> nat) :
  undo_restores ->
  captures_shrink mu ->
  (forall game difficulty random1 random2,
      exists fuel r, findComputerMove fuel game difficulty random1 random2 = Some r) /\
  (forall difficulty,
      1 <= depth (difficultySettings difficulty) /\
      (0 <= errorRate (difficultySettings difficulty))%Q /\
      (errorRate (difficultySettings difficulty) <= 1)%Q).
Proof.
  intros Hundo Hshrink. split.
  - intros game difficulty random1 random2.
    assert (Hdepth : 1 <= depth (difficultySettings difficulty))
      by (destruct difficulty; simpl; lia).
    destruct (findBestMoveForAnalysis_terminates Hundo Hshrink game Hdepth) as [r Hr].
    exists (rootFuel mu game (depth (difficultySettings difficulty))).
    unfold findComputerMove, findComputerMoveWith. rewrite Hr.
    destruct r as [best|]; [|eauto].
    destruct ((1 <? List.length (moves game))%nat
              && negb (Qle_bool (errorRate (difficultySettings difficulty)) random1));
      [|eauto].
    destruct (0 <? List.length
                (filter (fun m => negb (String.eqb (san m) (san best))) (moves game)))%nat;
      eauto.
  - intros difficulty. destruct difficulty; simpl; repeat split;
      try lia; unfold Qle; simpl; lia.
Qed.

Lemma every_tier_returns_witness :
  exists fuel r,
    findComputerMove fuel Examples.middleGame intermediate (1 # 2) (1 # 2) = Some r.
Proof.
  exact (proj1 (every_tier_returns Toy_undo_restores Toy_captures_shrink)
           Examples.middleGame intermediate (1 # 2) (1 # 2)).
Defined.


(** ** The display value *)





(** ** A mate on the board *)

Lemma best_value_is_top (isMax : bool) (v : score) :
  strictlyBetter isMax (if isMax then Infinity else NegInfinity) v = false ->
  v = (if isMax then Infinity else NegInfinity).
Proof. unfold strictlyBetter. destruct isMax; score_solve. Qed.

Lemma nothing_beats_top (isMax : bool) (v : score) :
  strictlyBetter isMax v (if isMax then Infinity else NegInfinity) = false.
Proof. unfold strictlyBetter. destruct isMax; score_solve. Qed.

(** X15: a mate on the board decides the value of the move returned.  If
    some legal move leaves the opponent checkmated (the game over, no move
    flagged ['c'] left to search), then, at every depth, the move the driver
    returns has the mate sentinel as its root value (+Infinity when White
    moves, -Infinity when Black moves), and it is the first legal move, in
    generation order, that has it: every move generated before it has
    another value.  The move returned need not be the mating move itself:
    an earlier move that the search values as a forced mate is kept. *)
Theorem mate_value_returned {Game : Type} `{ChessEngine Game}
    (fuel : nat) (game : Game) (depth : Z) (m : Move) (r : option Move) :
  In m (moves game) ->
  isCheckmate (move (newChess (fen game)) m) = true ->
  isGameOver (move (newChess (fen game)) m) = true ->
  turn (move (newChess (fen game)) m) = swapColor (turn game) ->
  captureMoves (move (newChess (fen game)) m) = [] ->
  findBestMoveForAnalysis (S (S fuel)) game depth = Some r ->
  exists best pre post,
    r = Some best /\ moves game = pre ++ best :: post /\
    rootValue (S (S fuel)) game depth (Color_eqb (turn game) White) best
    = Some (if Color_eqb (turn game) White then Infinity else NegInfinity) /\
    (forall m', In m' pre ->
       exists w, rootValue (S (S fuel)) game depth (Color_eqb (turn game) White) m' = Some w /\
                 w <> (if Color_eqb (turn game) White then Infinity else NegInfinity)).
Proof.
  intros Hin Hmate Hover Hturn Hquiet Hrun.
  set (isMax := Color_eqb (turn game) White) in *.
  set (top := if isMax then Infinity else NegInfinity).
  assert (Hm : rootValue (S (S fuel)) game depth isMax m = Some top).
  { unfold rootValue.
    destruct (@quiet_value _ _ fuel (depth - 1) NegInfinity Infinity (negb isMax)
                (move (newChess (fen game)) m) Hquiet eq_refl) as [_ Hterm].
    rewrite (Hterm Hover). f_equal. unfold evaluateBoard. rewrite Hmate, Hturn.
    unfold top, isMax. destruct (turn game); reflexivity. }
  unfold findBestMoveForAnalysis in Hrun.
  destruct (moves game) as [|first rest] eqn:Hmoves; [destruct Hin|].
  fold isMax in Hrun.
  destruct (root_loop (S (S fuel)) game depth isMax (first :: rest) first
              (if isMax then NegInfinity else Infinity)) as [[best v]|] eqn:Hloop;
    [|discriminate].
  inversion Hrun; subst r.
  apply (@root_loop_selected _ _ (S (S fuel)) game depth isMax (first :: rest) []) in Hloop;
    [|left; split; [reflexivity | intros m' []]].
  simpl in Hloop.
  destruct Hloop as [[_ Hall] | [pre [post [Hsplit [Hbest [Hpre Hpost]]]]]].
  - specialize (Hall m Hin). rewrite Hm in Hall. exfalso.
    unfold top in Hall. destruct isMax; discriminate.
  - assert (Hv : v = top).
    { rewrite Hsplit in Hin. apply in_app_or in Hin. destruct Hin as [Hin | [Heq | Hin]].
      - destruct (Hpre m Hin) as [w [Hw Hbetter]]. rewrite Hm in Hw. inversion Hw; subst w.
        rewrite nothing_beats_top in Hbetter. discriminate.
      - subst m. rewrite Hm in Hbest. congruence.
      - destruct (Hpost m Hin) as [w [Hw Hnot]]. rewrite Hm in Hw. inversion Hw; subst w.
        apply best_value_is_top in Hnot. exact Hnot. }
    subst v. exists best, pre, post.
    split; [reflexivity|]. split; [exact Hsplit|]. split; [exact Hbest|].
    intros m' Hin'. destruct (Hpre m' Hin') as [w [Hw Hbetter]].
    exists w. split; [exact Hw|]. intros ->. fold top in Hbetter.
    rewrite nothing_beats_top in Hbetter. discriminate.
Qed.

Lemma mate_value_returned_witness :
  exists best pre post,
    Some Examples.Qd8 = Some best /\ moves Examples.mateInOne = pre ++ best :: post /\
    rootValue 3 Examples.mateInOne 1 (Color_eqb (turn Examples.mateInOne) White) best
    = Some (if Color_eqb (turn Examples.mateInOne) White then Infinity else NegInfinity) /\
    (forall m', In m' pre ->
       exists w, rootValue 3 Examples.mateInOne 1
                   (Color_eqb (turn Examples.mateInOne) White) m' = Some w /\
                 w <> (if Color_eqb (turn Examples.mateInOne) White
                       then Infinity else NegInfinity)).
Proof.
  apply (@mate_value_returned _ _ 1%nat Examples.mateInOne 1 Examples.Qd8);
    try reflexivity.
  simpl. tauto.
Defined.
